(** * The people routes of people-api

    A shallow embedding of [server/src/routes/people-mongo.js]: the express
    router that serves the [people] collection of a MongoDB database, with
    its express-validator chains and its aggregation pipelines.

    Layout:
    - [value]: JSON/BSON values; documents and request bodies are
      [gmap string value];
    - [result]: JavaScript exceptions ([Throw]) against normal completion;
    - the driver calls the routes use ([find], [insertOne], [deleteOne],
      [updateOne], [aggregate]) on collections kept as lists of documents in
      natural (insertion) order;
    - the express-validator chains each route declares, and
      [validationResult];
    - one definition per route handler, then the properties.

    Every route of the file is here. GET /age/:age goes through
    JavaScript's string-to-number conversion, a builtin: its definition
    takes the conversion as a parameter.

    Numbers are IEEE doubles in the program; a number is carried here as
    the rational it denotes ([Q]), and where the program computes one (the
    quotient of [$avg], the [parseFloat] of a validator) the result is
    rounded to the nearest double ([round_double]). *)

From Stdlib Require Import QArith ZArith Lia Ascii String.
From stdpp Require Import gmap strings list fin_maps.

#[local] Set Warnings "-register-all".
#[local] Open Scope string_scope.
#[local] Open Scope list_scope.
#[local] Open Scope nat_scope.
#[local] Open Scope stdpp_scope.

(** ** Values *)

Inductive value : Type :=
  | VNull
  | VBool (b : bool)
  | VNum (q : Q)
  | VStr (s : string)
  | VOid (o : string)            (* an ObjectId, by its 24-digit hex form *)
  | VArr (l : list value)
  | VObj (m : gmap string value).

Abbreviation doc := (gmap string value).

(** Equality of values as the database compares them: structural, with
    numbers compared by value. *)
Fixpoint value_eqb (a b : value) {struct a} : bool :=
  match a, b with
  | VNull, VNull => true
  | VBool x, VBool y => Bool.eqb x y
  | VNum x, VNum y => Qeq_bool x y
  | VStr x, VStr y => String.eqb x y
  | VOid x, VOid y => String.eqb x y
  | VArr l, VArr l' =>
      (fix go (l l' : list value) {struct l} : bool :=
         match l, l' with
         | [], [] => true
         | x :: l, y :: l' => value_eqb x y && go l l'
         | _, _ => false
         end) l l'
  | VObj m, VObj m' =>
      map_fold (λ _ (same : bool) acc, same && acc) true
        (merge (λ x y, match x, y with
                       | Some x, Some y => Some (value_eqb x y)
                       | None, None => None
                       | _, _ => Some false
                       end) m m')
  | _, _ => false
  end.

(** ** Exceptions *)

Inductive result (A : Type) : Type :=
  | Ok (a : A)
  | Throw (e : string).
Arguments Ok {A} a.
Arguments Throw {A} e.

#[global] Instance result_ret : MRet result := λ A a, Ok a.
#[global] Instance result_bind : MBind result := λ A B f m,
  match m with
  | Ok a => f a
  | Throw e => Throw e
  end.

Fixpoint mapM {A B : Type} (f : A → result B) (l : list A) : result (list B) :=
  match l with
  | [] => Ok []
  | x :: l' => y ← f x; ys ← mapM f l'; Ok (y :: ys)
  end.

Fixpoint filterM {A : Type} (f : A → result bool) (l : list A) : result (list A) :=
  match l with
  | [] => Ok []
  | x :: l' => keep ← f x; ys ← filterM f l'; Ok (if keep : bool then x :: ys else ys)
  end.

(** ** ObjectId (package [mongodb])

    [ObjectId(s)] accepts a string of 24 hex digits, or any string of 12
    bytes (taken as the raw id), and throws on every other string. *)

Definition is_hex_digit (c : ascii) : bool :=
  let n := nat_of_ascii c in
  ((48 <=? n)%nat && (n <=? 57)%nat)
  || ((97 <=? n)%nat && (n <=? 102)%nat)
  || ((65 <=? n)%nat && (n <=? 70)%nat).

Definition to_lower (c : ascii) : ascii :=
  let n := nat_of_ascii c in
  if (65 <=? n)%nat && (n <=? 90)%nat then ascii_of_nat (n + 32) else c.

Definition hex_digit (n : nat) : ascii :=
  if (n <? 10)%nat then ascii_of_nat (48 + n) else ascii_of_nat (87 + n).

Definition hex_of_byte (c : ascii) : list ascii :=
  let n := nat_of_ascii c in [hex_digit (n / 16); hex_digit (n mod 16)].

Definition ObjectId (s : string) : result string :=
  let cs := list_ascii_of_string s in
  if (length cs =? 24)%nat && forallb is_hex_digit cs then
    Ok (string_of_list_ascii (to_lower <$> cs))
  else if (length cs =? 12)%nat then
    Ok (string_of_list_ascii (cs ≫= hex_of_byte))
  else Throw "Argument passed in must be a string of 12 bytes or a string of 24 hex characters".

(** ** The database *)

Record db : Type := {
  people : list doc;
  pets : list doc;
  cars : list doc;
}.

Definition collection (d : db) (name : string) : list doc :=
  if String.eqb name "people" then people d
  else if String.eqb name "pets" then pets d
  else if String.eqb name "cars" then cars d
  else [].

Definition set_people (d : db) (c : list doc) : db :=
  {| people := c; pets := pets d; cars := cars d |}.

(** A query [{k: q, ...}] selects the documents whose field [k] equals [q],
    or is an array with an element equal to [q]; a missing field counts
    as null. *)
Definition field_matches (q : value) (f : option value) : bool :=
  match f with
  | Some (VArr l) => value_eqb q (VArr l) || existsb (value_eqb q) l
  | Some v => value_eqb q v
  | None => value_eqb q VNull
  end.

Definition matches (query : list (string * value)) (d : doc) : bool :=
  forallb (λ '(k, q), field_matches q (d !! k)) query.

Definition find (query : list (string * value)) (c : list doc) : list doc :=
  List.filter (matches query) c.

(** [insertOne] adds an [_id] to a document that has none (the id the
    driver generates is an input here) and appends the document; the unique
    index on [_id] rejects an id that is already stored. *)
Definition insertOne (d : doc) (generated : string) (c : list doc)
  : result (list doc * doc) :=
  let d' := match d !! "_id" with
            | Some _ => d
            | None => <["_id" := VOid generated]> d
            end in
  if existsb (λ x, field_matches (default VNull (d' !! "_id")) (x !! "_id")) c
  then Throw "E11000 duplicate key error"
  else Ok (c ++ [d'], d').

Fixpoint deleteOne (query : list (string * value)) (c : list doc) : list doc :=
  match c with
  | [] => []
  | d :: c' => if matches query d then c' else d :: deleteOne query c'
  end.

Inductive update : Type :=
  | USet (fields : doc)                    (* {$set: fields} *)
  | UPush (field : string) (v : value).    (* {$push: {field: v}} *)

Definition apply_update (u : update) (d : doc) : result doc :=
  match u with
  | USet fields => Ok (fields ∪ d)
  | UPush f v =>
      match d !! f with
      | None => Ok (<[f := VArr [v]]> d)
      | Some (VArr l) => Ok (<[f := VArr (l ++ [v])]> d)
      | Some _ => Throw "The field must be an array"
      end
  end.

(** [updateOne] updates the first document the query selects, and nothing
    when it selects none (no upsert). *)
Fixpoint updateOne (query : list (string * value)) (u : update) (c : list doc)
  : result (list doc) :=
  match c with
  | [] => Ok []
  | d :: c' =>
      if matches query d then d' ← apply_update u d; Ok (d' :: c')
      else c'' ← updateOne query u c'; Ok (d :: c'')
  end.

(** ** Rounding to a double

    Where the program computes a number (a quotient in the store, a
    [parseFloat] in the validator) the result is the IEEE 754 binary64
    number nearest to the exact one, ties to even; [None] stands for an
    overflow to an infinity. *)

(** The fraction [(n / d) / 2 ^ x], for [d] positive. *)
Definition scale2 (n d x : Z) : Z * Z :=
  if (0 <=? x)%Z then (n, (d * 2 ^ x)%Z) else ((n * 2 ^ (- x))%Z, d).

(** The integer nearest to [n / d], ties to even, for [n ≥ 0] and [d > 0]. *)
Definition round_half_even (n d : Z) : Z :=
  let q := (n / d)%Z in
  let r := (n mod d)%Z in
  match (2 * r ?= d)%Z with
  | Lt => q
  | Gt => (q + 1)%Z
  | Eq => if Z.even q then q else (q + 1)%Z
  end.

(** The exponent [e] with [2 ^ e ≤ n / d < 2 ^ (e + 1)], for [n, d > 0]. *)
Definition log2_floor (n d : Z) : Z :=
  let e := (Z.log2 n - Z.log2 d)%Z in
  let '(n', d') := scale2 n d e in
  if (d' <=? n')%Z then e else (e - 1)%Z.

(** 53 bits of significand, exponents down to -1022 (below, the spacing
    stays that of the subnormals), overflow from [2 ^ 1024]. *)
Definition round_double (q : Q) : option Q :=
  let n := Z.abs (Qnum q) in
  let d := Zpos (Qden q) in
  if (n =? 0)%Z then Some 0%Q
  else
    let e := log2_floor n d in
    let x := (Z.max e (-1022) - 52)%Z in
    let '(n', d') := scale2 n d x in
    let m := round_half_even n' d' in
    if (0 <=? x)%Z && (2 ^ 1024 <=? m * 2 ^ x)%Z then None
    else
      let r := if (0 <=? x)%Z then inject_Z (m * 2 ^ x)
               else Qred (Qmake m (Z.to_pos (2 ^ (- x)))) in
      Some (if (Qnum q <? 0)%Z then Qopp r else r).

(** ** Aggregation pipelines

    The stages and expressions the routes use. An expression evaluates to
    a value or to nothing (a missing field); [$in] throws unless its second
    operand is an array. *)

Inductive expr : Type :=
  | EField (name : string)       (* "$name" *)
  | EVar (name : string)         (* "$$name" *)
  | EIn (e1 e2 : expr).          (* {$in: [e1, e2]} *)

Inductive accumulator : Type :=
  | Avg (e : expr).              (* {$avg: e} *)

Inductive stage : Type :=
  | SMatch (query : list (string * value))
  | SMatchExpr (e : expr)                                   (* {$match: {$expr: e}} *)
  | SLookup (from localField foreignField as_ : string)
  | SLookupLet (from : string) (lets : list (string * expr))
               (pipeline : list stage) (as_ : string)
  | SUnset (fields : list string)
  | SGroup (_id : value) (fields : list (string * accumulator)).

Fixpoint eval_expr (vars : doc) (d : doc) (e : expr) : result (option value) :=
  match e with
  | EField f => Ok (d !! f)
  | EVar x => Ok (vars !! x)
  | EIn e1 e2 =>
      v1 ← eval_expr vars d e1;
      v2 ← eval_expr vars d e2;
      match v2 with
      | Some (VArr l) => Ok (Some (VBool (existsb (value_eqb (default VNull v1)) l)))
      | _ => Throw "$in requires an array as a second argument"
      end
  end.

(** What [$match: {$expr: ...}] keeps: every value but false, null, zero
    and a missing one. *)
Definition truthy (v : option value) : bool :=
  match v with
  | None | Some VNull | Some (VBool false) => false
  | Some (VNum q) => negb (Qeq_bool q 0)
  | Some _ => true
  end.

(** A variable of [let] bound to a missing field stays missing. *)
Fixpoint bind_lets (d : doc) (lets : list (string * expr)) (vars : doc) : result doc :=
  match lets with
  | [] => Ok vars
  | (x, e) :: lets' =>
      v ← eval_expr ∅ d e;
      bind_lets d lets' (match v with Some v => <[x := v]> vars | None => delete x vars end)
  end.

(** The equality [$lookup] joins on: the query [{foreignField: local}] run
    on the foreign collection, element-wise when the local field is an
    array, with missing fields as null. *)
Definition join_matches (local foreign : option value) : bool :=
  match local with
  | Some (VArr l) => existsb (λ x, field_matches x (Some (default VNull foreign))) l
  | _ => field_matches (default VNull local) (Some (default VNull foreign))
  end.

Definition numeric (v : option value) : option Q :=
  match v with
  | Some (VNum q) => Some q
  | _ => None
  end.

Definition Qsum (l : list Q) : Q := foldr Qplus 0%Q l.

(** [$avg] skips the values that are not numbers and gives null when none
    is left. The store adds the numbers in extended precision, rounds the
    total to a double and divides it by the count in double arithmetic; the
    total is taken as exact before it is rounded. An infinite average
    leaves the route as null, which is how JSON writes it. *)
Definition avg (vs : list (option value)) : value :=
  let qs := omap numeric vs in
  match qs with
  | [] => VNull
  | _ =>
      match round_double (Qsum qs) with
      | Some total =>
          match round_double (total / inject_Z (Z.of_nat (length qs))) with
          | Some q => VNum q
          | None => VNull
          end
      | None => VNull
      end
  end.

Definition run_accumulator (a : accumulator) (input : list doc) : result value :=
  match a with
  | Avg e => vs ← mapM (λ d, eval_expr ∅ d e) input; Ok (avg vs)
  end.

Fixpoint run_accumulators (accs : list (string * accumulator)) (input : list doc)
  : result doc :=
  match accs with
  | [] => Ok ∅
  | (k, a) :: accs' =>
      v ← run_accumulator a input;
      m ← run_accumulators accs' input;
      Ok (<[k := v]> m)
  end.

Fixpoint run_stage (store : db) (vars : doc) (s : stage) (input : list doc)
  {struct s} : result (list doc) :=
  match s with
  | SMatch query => Ok (find query input)
  | SMatchExpr e =>
      filterM (λ d, v ← eval_expr vars d e; Ok (truthy v)) input
  | SLookup from localField foreignField as_ =>
      Ok ((λ d, <[as_ := VArr (VObj <$> List.filter
                                 (λ f, join_matches (d !! localField) (f !! foreignField))
                                 (collection store from))]> d) <$> input)
  | SLookupLet from lets pipeline as_ =>
      mapM (λ d,
              vars' ← bind_lets d lets ∅;
              joined ← (fix go (p : list stage) (ds : list doc) {struct p} :=
                          match p with
                          | [] => Ok ds
                          | s' :: p' => ds' ← run_stage store vars' s' ds; go p' ds'
                          end) pipeline (collection store from);
              Ok (<[as_ := VArr (VObj <$> joined)]> d))
           input
  | SUnset fields => Ok ((λ d, foldr delete d fields) <$> input)
  | SGroup _id fields =>
      (* a constant [_id] puts every document in one group; no document,
         no group *)
      match input with
      | [] => Ok []
      | _ => m ← run_accumulators fields input; Ok [ <["_id" := _id]> m ]
      end
  end.

Fixpoint run_pipeline (store : db) (p : list stage) (input : list doc)
  : result (list doc) :=
  match p with
  | [] => Ok input
  | s :: p' => ds ← run_stage store ∅ s input; run_pipeline store p' ds
  end.

(** [collection.aggregate(pipeline).toArray()] *)
Definition aggregate (store : db) (c : list doc) (pipeline : list stage)
  : result (list doc) :=
  run_pipeline store pipeline c.

(** ** Requests, responses and the world around a handler *)

Record request : Type := {
  params : gmap string string;     (* req.params *)
  body : doc;                      (* req.body, parsed JSON *)
}.

Record response : Type := {
  status : nat;
  sent : value;
}.

(** [res.send(x)] answers 200; [res.status(n).send(x)] answers [n]. *)
Definition send (x : value) : response := {| status := 200; sent := x |}.
Definition status_send (n : nat) (x : value) : response := {| status := n; sent := x |}.

(** The store and the wall clock (milliseconds). *)
Record world : Type := {
  store : db;
  clock : Z;
}.

(** What one request draws from outside: the ObjectId the driver generates
    on an insert, and the time that passes before the handler reads the
    clock. *)
Record env : Type := {
  generated_id : string;
  elapsed : N;
}.

Definition Date_now (e : env) (w : world) : Z := (clock w + Z.of_N (elapsed e))%Z.

Definition with_people (w : world) (t : Z) (c : list doc) : world :=
  {| store := set_people (store w) c; clock := t |}.

Definition param (req : request) (name : string) : string :=
  default "" (params req !! name).

(** ** express-validator

    Each chain runs before the handler and records its failures in the
    request; the handler sees them only through [validationResult]. *)

Record verror : Type := {
  err_value : option value;
  err_msg : string;
  err_param : string;
  err_location : string;
}.

Definition chain : Type := request → db → list verror.

(** [body(fields, message).<validator>()] *)
Definition body_fields (fields : list string) (message : string)
    (validator : option value → bool) : chain :=
  λ req _, fields ≫= (λ f,
    let v := body req !! f in
    if validator v then []
    else [ {| err_value := v; err_msg := message; err_param := f;
              err_location := "body" |} ]).

(** [body(undefined, message).custom(validator)]: the whole body *)
Definition body_custom (message : string) (validator : doc → bool) : chain :=
  λ req _,
    if validator (body req) then []
    else [ {| err_value := Some (VObj (body req)); err_msg := message;
              err_param := ""; err_location := "body" |} ].

(** [param(name).custom(validator)] *)
Definition param_custom (name : string) (validator : db → string → bool) : chain :=
  λ req store,
    let v := param req name in
    if validator store v then []
    else [ {| err_value := Some (VStr v); err_msg := "Invalid value";
              err_param := name; err_location := "params" |} ].

(** [.exists()]: the value is not undefined *)
Definition exists_ (v : option value) : bool :=
  match v with
  | Some _ => true
  | None => false
  end.

(** [.isString()] *)
Definition isString (v : option value) : bool :=
  match v with
  | Some (VStr _) => true
  | _ => false
  end.

Definition is_digit (c : ascii) : bool :=
  let n := nat_of_ascii c in (48 <=? n) && (n <=? 57).

Fixpoint span_digits (cs : list ascii) : list ascii * list ascii :=
  match cs with
  | c :: cs' =>
      if is_digit c then let '(ds, r) := span_digits cs' in (c :: ds, r)
      else ([], cs)
  | [] => ([], [])
  end.

Definition digits_to_N (ds : list ascii) : N :=
  foldl (λ acc c, 10 * acc + N.of_nat (nat_of_ascii c - 48))%N 0%N ds.

Definition take_sign (cs : list ascii) : bool * list ascii :=
  match cs with
  | c :: r =>
      if Ascii.eqb c "-" then (true, r)
      else if Ascii.eqb c "+" then (false, r)
      else (false, cs)
  | [] => (false, [])
  end.

(** The number a string denotes when it has the shape validator.js takes
    for a float (an optional sign, digits, an optional point and digits, an
    optional exponent with its digits) and [parseFloat] finds a digit in
    its mantissa. *)
Definition parse_float (s : string) : option Q :=
  let '(neg, cs) := take_sign (list_ascii_of_string s) in
  let '(ip, cs) := span_digits cs in
  let '(fp, cs) := match cs with
                   | c :: r => if Ascii.eqb c "." then span_digits r else ([], cs)
                   | [] => ([], [])
                   end in
  let exponent : option (Z * list ascii) :=
    match cs with
    | c :: r =>
        if Ascii.eqb c "e" || Ascii.eqb c "E" then
          let '(eneg, r) := take_sign r in
          let '(ed, r) := span_digits r in
          match ed with
          | [] => None
          | _ => let n := Z.of_N (digits_to_N ed) in
                 Some (if eneg then (- n)%Z else n, r)
          end
        else None
    | [] => Some (0%Z, [])
    end in
  match exponent, ip ++ fp with
  | Some (ex, []), (_ :: _) as ds =>
      let m := inject_Z (Z.of_N (digits_to_N ds)) in
      let q := (m * Qpower 10 (ex - Z.of_nat (length fp)))%Q in
      Some (if neg then Qopp q else q)
  | _, _ => None
  end.

Definition in_range (min max q : Q) : bool := Qle_bool min q && Qle_bool q max.

(** The float test on the text of a value, as validator.js makes it: the
    text has the shape of a float and [parseFloat] of it, a double, lies
    between the bounds. A number prints as itself. An array prints as its
    elements joined by commas, so only an array of one element can pass,
    through that element; booleans, null and objects print as text that
    is no float. *)
Fixpoint isFloat_text (min max : Q) (v : value) : bool :=
  match v with
  | VNum q => in_range min max q
  | VStr s =>
      match parse_float s with
      | Some q =>
          match round_double q with
          | Some d => in_range min max d
          | None => false
          end
      | None => false
      end
  | VArr [x] => isFloat_text min max x
  | _ => false
  end.

(** [.isFloat({min, max})]: a standard validator, run on the string form
    express-validator gives the value: that of its first element when the
    value is a non-empty array, the empty string when it is undefined or
    an empty array. *)
Definition isFloat (min max : Q) (v : option value) : bool :=
  match v with
  | Some (VArr (x :: _)) => isFloat_text min max x
  | Some (VArr []) => false
  | Some x => isFloat_text min max x
  | None => false
  end.

Definition validationResult (recorded : list verror) : list verror := recorded.

Definition isEmpty (errors : list verror) : bool :=
  match errors with
  | [] => true
  | _ => false
  end.

Definition error_object (e : verror) : value :=
  let m : doc := {[ "msg" := VStr (err_msg e); "param" := VStr (err_param e);
                    "location" := VStr (err_location e) ]} in
  VObj (match err_value e with
        | Some v => <["value" := v]> m
        | None => m
        end).

(** [errors.array()] *)
Definition array (errors : list verror) : value := VArr (error_object <$> errors).

Definition handler : Type := request → list verror → env → world → world * response.

(** What the declared chains of a route record for a request. *)
Definition run_validators (validators : list chain) (req : request) (w : world)
  : list verror :=
  validators ≫= (λ c, c req (store w)).

(** [router.METHOD(path, ...validators, handler)] *)
Definition route (validators : list chain) (h : handler)
  : request → env → world → world * response :=
  λ req e w, h req (run_validators validators req w) e w.

(** ** Collaborators that are not part of this file of the repository *)

(** Modelled from the spec: the [Person] class of [models/Person.js], which
    is not among the sources. The spec gives a created person the fields
    [name], [lastname] and [age] as submitted; [petIds], [carId] and
    [updatedAt] appear only through the later routes. *)
Definition Person (o : doc) : doc :=
  filter (λ kv, kv.1 ∈ ["name"; "lastname"; "age"]) o.

(** Modelled from the spec: [sendError] of [utils/error.js], which is not
    among the sources. The spec has it turn any error into an HTTP 500
    answer. *)
Definition sendError (e : string) : response :=
  status_send 500 (VObj {[ "error" := VStr e ]}).

Definition references (c : list doc) (id : string) : bool :=
  match ObjectId id with
  | Ok o => existsb (matches [("_id", VOid o)]) c
  | Throw _ => false
  end.

(** Modelled from the spec: [validatePersonId], [validatePetId] and
    [validateCarId] of [utils/validators.js], which is not among the
    sources. The spec has each accept an id that is a syntactically valid
    identifier and references an existing document of its collection. *)
Definition validatePersonId (store : db) (id : string) : bool :=
  references (people store) id.
Definition validatePetId (store : db) (id : string) : bool :=
  references (pets store) id.
Definition validateCarId (store : db) (id : string) : bool :=
  references (cars store) id.

(** ** The routes *)

(** [try { ... } catch (e) { sendError(e, res) }]: every handler makes at
    most one storage call, so a throw leaves the world as it was. *)
Definition try_catch (w : world) (r : result (world * response))
    (on_error : string → response) : world * response :=
  match r with
  | Ok x => x
  | Throw e => (w, on_error e)
  end.

Definition bad_request (errors : list verror) : response :=
  status_send 400 (VObj {[ "errors" := array errors ]}).

(** GET / *)
Definition get_root : request → env → world → world * response :=
  route [] (λ req _ e w,
    try_catch w
      (let peopleCollection := people (store w) in
       let data := find [] peopleCollection in
       Ok (w, send (VArr (VObj <$> data))))
      sendError).

Definition post_root_validators : list chain :=
  [ body_fields ["name"; "lastname"; "age"] "Missing param" exists_;
    body_fields ["name"; "lastname"] "Invalid value" isString;
    body_fields ["age"] "Invalid value" (isFloat 1 150) ].

(** POST / *)
Definition post_root : request → env → world → world * response :=
  route post_root_validators
    (λ req recorded e w,
      let peopleCollection := people (store w) in
      try_catch w
        (let errors := validationResult recorded in
         if negb (isEmpty errors) then Ok (w, bad_request errors)
         else
           let person := Person (body req) in
           '(stored, person) ← insertOne person (generated_id e) peopleCollection;
           Ok (with_people w (clock w) stored, send (VObj person)))
        sendError).

Definition delete_person_validators : list chain :=
  [ param_custom "id" validatePersonId ].

(** DELETE /person/:id *)
Definition delete_person : request → env → world → world * response :=
  route delete_person_validators
    (λ req recorded e w,
      try_catch w
        (let peopleCollection := people (store w) in
         let id := param req "id" in
         o ← ObjectId id;
         let stored := deleteOne [("_id", VOid o)] peopleCollection in
         Ok (with_people w (clock w) stored,
             send (VObj {[ "deletedPersonId" := VStr id ]})))
        sendError).

Definition allowedFields : list string := ["name"; "lastname"; "age"].

(** [Object.keys(body)] *)
Definition Object_keys (o : doc) : list string := (map_to_list o).*1.

Definition includes (l : list string) (key : string) : bool :=
  existsb (String.eqb key) l.

Definition patch_body_validator (b : doc) : bool :=
  let notAllowed := existsb (λ key, negb (includes allowedFields key)) (Object_keys b) in
  if notAllowed then false else true.

Definition patch_person_validators : list chain :=
  [ param_custom "id" validatePersonId;
    body_custom "Bad model" patch_body_validator ].

(** PATCH /person/:id *)
Definition patch_person : request → env → world → world * response :=
  route patch_person_validators
    (λ req recorded e w,
      try_catch w
        (let errors := validationResult recorded in
         if negb (isEmpty errors) then Ok (w, bad_request errors)
         else
           let peopleCollection := people (store w) in
           let id := param req "id" in
           let now := Date_now e w in
           let update : doc := <["updatedAt" := VNum (inject_Z now)]> (body req) in
           o ← ObjectId id;
           stored ← updateOne [("_id", VOid o)] (USet update) peopleCollection;
           Ok (with_people w now stored,
               send (VObj {[ "updatedPersonId" := VStr id ]})))
        sendError).

(** GET /name/:name *)
Definition get_by_name : request → env → world → world * response :=
  route [] (λ req _ e w,
    let name := param req "name" in
    let peopleCollection := people (store w) in
    try_catch w
      (let found := find [("name", VStr name)] peopleCollection in
       Ok (w, send (VArr (VObj <$> found))))
      sendError).

Definition average_pipeline : list stage :=
  [ SGroup (VStr "average") [("average", Avg (EField "age"))] ].

(** GET /average/age *)
Definition get_average_age : request → env → world → world * response :=
  route [] (λ req _ e w,
    try_catch w
      (let peopleCollection := people (store w) in
       let pipeline := average_pipeline in
       result ← aggregate (store w) peopleCollection pipeline;
       Ok (w, send (VArr (VObj <$> result))))
      (λ error, status_send 500 (VObj {[ "error" := VStr error ]}))).

Definition add_pet_validators : list chain :=
  [ param_custom "id" validatePersonId;
    param_custom "petId" validatePetId ].

(** POST /person/:id/pet/:petId *)
Definition add_pet : request → env → world → world * response :=
  route add_pet_validators
    (λ req recorded e w,
      try_catch w
        (let errors := validationResult recorded in
         if negb (isEmpty errors) then Ok (w, bad_request errors)
         else
           let id := param req "id" in
           let petId := param req "petId" in
           let peopleCollection := people (store w) in
           o ← ObjectId id;
           p ← ObjectId petId;
           stored ← updateOne [("_id", VOid o)] (UPush "petIds" (VOid p)) peopleCollection;
           Ok (with_people w (clock w) stored,
               send (VObj {[ "addedPetId" := VStr petId;
                             "updatedPersonId" := VStr id ]})))
        sendError).

Definition pets_pipeline (o : string) : list stage :=
  [ SMatch [("_id", VOid o)];
    SLookupLet "pets" [("ids", EField "petIds")]
               [ SMatchExpr (EIn (EField "_id") (EVar "ids")) ]
               "pets";
    SUnset ["petIds"] ].

Definition get_pets_validators : list chain :=
  [ param_custom "id" validatePersonId ].

(** GET /person/:id/pets *)
Definition get_pets : request → env → world → world * response :=
  route get_pets_validators
    (λ req recorded e w,
      try_catch w
        (let errors := validationResult recorded in
         if negb (isEmpty errors) then Ok (w, bad_request errors)
         else
           let peopleCollection := people (store w) in
           let id := param req "id" in
           o ← ObjectId id;
           let pipeline := pets_pipeline o in
           result ← aggregate (store w) peopleCollection pipeline;
           Ok (w, send (VArr (VObj <$> result))))
        sendError).

Definition car_pipeline : list stage :=
  [ SLookup "cars" "carId" "_id" "car";
    SUnset ["carId"] ].

Definition get_car_validators : list chain :=
  [ param_custom "id" validatePersonId ].

(** GET /person/:id/car *)
Definition get_car : request → env → world → world * response :=
  route get_car_validators
    (λ req recorded e w,
      try_catch w
        (let peopleCollection := people (store w) in
         let pipeline := car_pipeline in
         result ← aggregate (store w) peopleCollection pipeline;
         Ok (w, send (VArr (VObj <$> result))))
        sendError).

Definition add_car_validators : list chain :=
  [ param_custom "id" validatePersonId;
    param_custom "carId" validateCarId ].

(** POST /person/:id/car/:carId *)
Definition add_car : request → env → world → world * response :=
  route add_car_validators
    (λ req recorded e w,
      try_catch w
        (let errors := validationResult recorded in
         if negb (isEmpty errors) then Ok (w, bad_request errors)
         else
           let peopleCollection := people (store w) in
           let id := param req "id" in
           let carId := param req "carId" in
           o ← ObjectId id;
           c ← ObjectId carId;
           stored ← updateOne [("_id", VOid o)] (USet {[ "carId" := VOid c ]}) peopleCollection;
           Ok (with_people w (clock w) stored,
               send (VObj {[ "updatedPersonId" := VStr id;
                             "newCarId" := VStr carId ]})))
        sendError).

(** ** GET /age/:age

    [Number(s)] is a builtin of the language; the route is defined over any
    conversion [Number] from strings to JavaScript numbers. *)

Inductive jsnumber : Type :=
  | NaN
  | Infinity (negative : bool)
  | Finite (q : Q).

(** [Number.isNaN(n)] *)
Definition Number_isNaN (n : jsnumber) : bool :=
  match n with
  | NaN => true
  | _ => false
  end.

(** [n < m] and [n > m] for a finite [m]; every comparison with NaN is
    false. *)
Definition js_lt (n : jsnumber) (m : Q) : bool :=
  match n with
  | NaN => false
  | Infinity negative => negative
  | Finite q => negb (Qle_bool m q)
  end.

Definition js_gt (n : jsnumber) (m : Q) : bool :=
  match n with
  | NaN => false
  | Infinity negative => negb negative
  | Finite q => negb (Qle_bool q m)
  end.

(** The custom validator of the age parameter. The comparisons are made on
    the string [age], which they convert as [Number] does. *)
Definition age_validator (Number : string → jsnumber) (age : string) : bool :=
  let _age := Number age in
  if Number_isNaN _age then false
  else if js_lt (Number age) 1 || js_gt (Number age) 150 then false
  else true.

Definition get_by_age_validators (Number : string → jsnumber) : list chain :=
  [ param_custom "age" (λ _, age_validator Number) ].

(** [find({ age })] for a JavaScript number. No stored value is NaN or
    infinite ([value] has only finite numbers), so such a query selects
    nothing. *)
Definition find_age (age : jsnumber) (c : list doc) : list doc :=
  match age with
  | Finite q => find [("age", VNum q)] c
  | _ => []
  end.

Definition get_by_age (Number : string → jsnumber)
  : request → env → world → world * response :=
  route (get_by_age_validators Number)
    (λ req recorded e w,
      try_catch w
        (let errors := validationResult recorded in
         if negb (isEmpty errors) then Ok (w, bad_request errors)
         else
           let age := Number (param req "age") in
           let peopleCollection := people (store w) in
           let found := find_age age peopleCollection in
           Ok (w, send (VArr (VObj <$> found))))
        sendError).

(** The eleven routes of the router, in the order of the file. *)
Definition all_routes (Number : string → jsnumber)
  : list (request → env → world → world * response) :=
  [ get_root; post_root; delete_person; patch_person; get_by_name;
    get_by_age Number; get_average_age; add_pet; get_pets; get_car; add_car ].

(** The routes registered with [router.get]. *)
Definition read_routes (Number : string → jsnumber)
  : list (request → env → world → world * response) :=
  [ get_root; get_by_name; get_by_age Number; get_average_age; get_pets; get_car ].

(** ** Well-keyed collections

    The database keeps an [_id] in every document and a unique index on it;
    the ids this application stores are ObjectIds. *)

Definition oid_of (d : doc) : option string :=
  match d !! "_id" with
  | Some (VOid o) => Some o
  | _ => None
  end.

Definition has_oid (d : doc) : bool :=
  match oid_of d with
  | Some _ => true
  | None => false
  end.

Definition well_keyed (c : list doc) : Prop :=
  forallb has_oid c = true ∧ NoDup (oid_of <$> c).

(** The query [{_id: ObjectId(id)}] of the routes. *)
Definition by_id (o : string) : list (string * value) := [("_id", VOid o)].

(** [d] is the first document of [c] that the query [{_id: o}] selects. *)
Definition first_with_id (o : string) (before : list doc) (d : doc) (after : list doc)
    (c : list doc) : Prop :=
  c = before ++ d :: after
  ∧ Forall (λ x, matches (by_id o) x = false) before
  ∧ matches (by_id o) d = true.

(** ** What the pipelines compute, per document *)

(** The person [d] as GET /person/:id/car shows it, given the stored cars. *)
Definition with_car (garage : list doc) (d : doc) : doc :=
  delete "carId"
    (<["car" := VArr (VObj <$> List.filter
                        (λ c, join_matches (d !! "carId") (c !! "_id")) garage)]> d).

(** Whether the stored pet [p] is one of the [ids]: the [$in] test of the
    pets lookup. *)
Definition in_pet_ids (ids : list value) (p : doc) : bool :=
  existsb (value_eqb (default VNull (p !! "_id"))) ids.

(** The values [$age] takes over a collection. *)
Definition ages (c : list doc) : list (option value) := (λ d, d !! "age") <$> c.


(** The evaluation steps the examples on the sample data share. *)
Ltac by_eval := vm_compute; reflexivity.
Ltac by_decide := apply (bool_decide_unpack _); vm_compute; exact I.

(** ** Sample data *)

Module Sample.

Definition ann_id : string := "5f1a2b3c4d5e6f7a8b9c0d01".
Definition bob_id : string := "5f1a2b3c4d5e6f7a8b9c0d02".
Definition cid_id : string := "5f1a2b3c4d5e6f7a8b9c0d03".
Definition new_id : string := "5f1a2b3c4d5e6f7a8b9c0d04".
Definition rex_id : string := "aaaaaaaaaaaaaaaaaaaaaaa1".
Definition tom_id : string := "aaaaaaaaaaaaaaaaaaaaaaa2".
Definition kia_id : string := "ccccccccccccccccccccccc1".

Definition ann : doc :=
  {[ "_id" := VOid ann_id; "name" := VStr "Ann"; "lastname" := VStr "Lee";
     "age" := VNum 10 ]}.
Definition bob : doc :=
  {[ "_id" := VOid bob_id; "name" := VStr "Bob"; "lastname" := VStr "Roe";
     "age" := VNum 20; "carId" := VOid kia_id;
     "petIds" := VArr [VOid rex_id; VOid tom_id] ]}.
Definition cid : doc :=
  {[ "_id" := VOid cid_id; "name" := VStr "Cid"; "lastname" := VStr "Poe";
     "age" := VNum 30 ]}.

Definition rex : doc := {[ "_id" := VOid rex_id; "name" := VStr "Rex" ]}.
Definition tom : doc := {[ "_id" := VOid tom_id; "name" := VStr "Tom" ]}.
Definition kia : doc := {[ "_id" := VOid kia_id; "make" := VStr "Kia" ]}.

(** Three people aged 10, 20 and 30; Bob owns the car and both pets. *)
Definition w0 : world :=
  {| store := {| people := [ann; bob; cid]; pets := [rex; tom]; cars := [kia] |};
     clock := 1000 |}.

(** The same, after the pet Tom has been deleted from [pets]. *)
Definition w_stale : world :=
  {| store := {| people := [ann; bob; cid]; pets := [rex]; cars := [kia] |};
     clock := 1000 |}.


Definition e0 : env := {| generated_id := new_id; elapsed := 5 |}.

Definition req (ps : list (string * string)) (b : doc) : request :=
  {| params := list_to_map ps; body := b |}.

(** A conversion for the examples: decimal literals, NaN for the rest. *)
Definition Number (s : string) : jsnumber :=
  match parse_float s with
  | Some q => Finite q
  | None => NaN
  end.

End Sample.

(** * Properties *)

(** ** Values and queries *)

#[local] Arguments matches : simpl never.
#[local] Arguments ObjectId : simpl never.

Lemma value_eqb_oid (a b : string) : value_eqb (VOid a) (VOid b) = true ↔ a = b.
Proof. simpl. apply String.eqb_eq. Qed.

Lemma matches_by_id (o : string) (d : doc) :
  matches (by_id o) d = field_matches (VOid o) (d !! "_id").
Proof. unfold matches, by_id. cbn [forallb]. apply andb_true_r. Qed.

Lemma matches_by_id_oid (o : string) (d : doc) :
  has_oid d = true → matches (by_id o) d = true ↔ oid_of d = Some o.
Proof.
  rewrite matches_by_id. unfold has_oid, oid_of.
  destruct (d !! "_id") as [[]|] eqn:E; simpl; try discriminate.
  intros _. rewrite String.eqb_eq. split; [intros ->; done | intros [= ->]; done].
Qed.

(** An update that leaves [_id] alone leaves the answer of [{_id: o}] alone. *)
Lemma matches_by_id_same_id (o : string) (d d' : doc) :
  d' !! "_id" = d !! "_id" → matches (by_id o) d' = matches (by_id o) d.
Proof. intros H. by rewrite !matches_by_id, H. Qed.

Lemma first_match {A : Type} (p : A → bool) (c : list A) :
  existsb p c = true →
  ∃ before d after,
    c = before ++ d :: after ∧ Forall (λ x, p x = false) before ∧ p d = true.
Proof.
  induction c as [|x c IH]; simpl; [discriminate|].
  destruct (p x) eqn:Hx; simpl.
  - intros _. exists [], x, c. by repeat split.
  - intros H. destruct (IH H) as (before & d & after & -> & Hb & Hd).
    exists (x :: before), d, after. repeat split; [|done]. by constructor.
Qed.

Lemma references_first (c : list doc) (id : string) :
  references c id = true →
  ∃ o before d after, ObjectId id = Ok o ∧ first_with_id o before d after c.
Proof.
  unfold references. destruct (ObjectId id) as [o|] eqn:E; [|discriminate].
  intros H. destruct (first_match _ _ H) as (before & d & after & ? & ? & ?).
  exists o, before, d, after. by repeat split.
Qed.

Lemma first_with_id_references (o id : string) before d after c :
  ObjectId id = Ok o → first_with_id o before d after c → references c id = true.
Proof.
  intros E (-> & _ & Hd). unfold references. rewrite E, existsb_app.
  cbn [existsb]. change [("_id", VOid o)] with (by_id o).
  by rewrite Hd, orb_true_r.
Qed.

(** ** The storage calls *)

Lemma updateOne_none q u (c : list doc) :
  Forall (λ x, matches q x = false) c → updateOne q u c = Ok c.
Proof.
  induction 1 as [|x c Hx _ IH]; simpl; [done|]. by rewrite Hx, IH.
Qed.

Lemma updateOne_first q u (before : list doc) d after :
  Forall (λ x, matches q x = false) before → matches q d = true →
  updateOne q u (before ++ d :: after)
  = d' ← apply_update u d; Ok (before ++ d' :: after).
Proof.
  induction 1 as [|x c Hx _ IH]; intros Hd; simpl.
  - by rewrite Hd.
  - rewrite Hx, (IH Hd). by destruct (apply_update u d).
Qed.

Lemma deleteOne_none q (c : list doc) :
  Forall (λ x, matches q x = false) c → deleteOne q c = c.
Proof.
  induction 1 as [|x c Hx _ IH]; simpl; [done|]. by rewrite Hx, IH.
Qed.

Lemma well_keyed_cons d c : well_keyed (d :: c) → well_keyed c.
Proof.
  intros [H1 H2]. simpl in H1. apply andb_true_iff in H1 as [_ H1].
  rewrite fmap_cons in H2. apply NoDup_cons in H2 as [_ H2]. by split.
Qed.

Lemma well_keyed_head_unique o d c :
  well_keyed (d :: c) → matches (by_id o) d = true →
  Forall (λ x, matches (by_id o) x = false) c.
Proof.
  intros [H1 H2] Hd. simpl in H1. apply andb_true_iff in H1 as [Hd1 H1].
  rewrite fmap_cons in H2. apply NoDup_cons in H2 as [Hnotin _].
  apply matches_by_id_oid in Hd; [|done].
  apply Forall_forall. intros x Hx.
  assert (has_oid x = true) as Hx1.
  { rewrite forallb_forall in H1. apply H1. by apply list_elem_of_In. }
  destruct (matches (by_id o) x) eqn:E; [|done].
  apply matches_by_id_oid in E; [|done].
  exfalso. apply Hnotin. rewrite Hd, <- E. by apply list_elem_of_fmap_2.
Qed.

(** With unique ids, [deleteOne] removes every document the query selects. *)
Lemma deleteOne_well_keyed o (c : list doc) :
  well_keyed c →
  deleteOne (by_id o) c = List.filter (λ d, negb (matches (by_id o) d)) c.
Proof.
  induction c as [|d c IH]; intros Hwf; simpl; [done|].
  destruct (matches (by_id o) d) eqn:Hd; simpl.
  - pose proof (well_keyed_head_unique _ _ _ Hwf Hd) as Hnone.
    clear -Hnone. induction Hnone as [|x c Hx _ IH]; simpl; [done|].
    rewrite Hx. simpl. by f_equal.
  - f_equal. apply IH. by eapply well_keyed_cons.
Qed.

(** ** The routes, unfolded *)

Lemma param_lookup (req : request) (name v : string) :
  params req !! name = Some v → param req name = v.
Proof. unfold param. by intros ->. Qed.

Lemma with_people_same (w : world) : with_people w (clock w) (people (store w)) = w.
Proof. by destruct w as [[] ?]. Qed.

Lemma delete_person_eq (req : request) (e : env) (w : world) :
  delete_person req e w =
  match ObjectId (param req "id") with
  | Ok o => (with_people w (clock w) (deleteOne (by_id o) (people (store w))),
             send (VObj {[ "deletedPersonId" := VStr (param req "id") ]}))
  | Throw err => (w, sendError err)
  end.
Proof.
  unfold delete_person, route, try_catch.
  by destruct (ObjectId (param req "id")).
Qed.

Lemma get_root_eq (req : request) (e : env) (w : world) :
  get_root req e w = (w, send (VArr (VObj <$> people (store w)))).
Proof.
  unfold get_root, route, try_catch, find. f_equal. f_equal. f_equal. f_equal.
  induction (people (store w)) as [|d c IH]; [done|].
  cbn [List.filter]. unfold matches at 1. cbn [forallb]. by f_equal.
Qed.

(** ** DELETE /person/:id *)

(** C5. For a well-formed id, DELETE /person/:id answers 200 with
    [{deletedPersonId: id}] whether or not a person has that id; it leaves
    the world as it was when no person has it, and when the collection is
    keyed by unique ids every later GET / lists the people without the
    documents of that id. *)
Theorem delete_person_is_idempotent (req : request) (e : env) (w : world)
    (id o : string) :
  params req !! "id" = Some id →
  ObjectId id = Ok o →
  ∃ w',
    delete_person req e w = (w', send (VObj {[ "deletedPersonId" := VStr id ]}))
    ∧ pets (store w') = pets (store w)
    ∧ cars (store w') = cars (store w)
    ∧ (Forall (λ d, matches (by_id o) d = false) (people (store w)) → w' = w)
    ∧ (well_keyed (people (store w)) →
       Forall (λ d, matches (by_id o) d = false) (people (store w'))
       ∧ ∀ req' e',
           get_root req' e' w'
           = (w', send (VArr (VObj <$> List.filter (λ d, negb (matches (by_id o) d))
                                         (people (store w)))))).
Proof.
  intros Hid Ho. apply param_lookup in Hid.
  rewrite delete_person_eq, Hid, Ho.
  eexists. split; [reflexivity|]. split; [done|]. split; [done|]. split.
  - intros Hnone. rewrite deleteOne_none by done. apply with_people_same.
  - intros Hwf. rewrite deleteOne_well_keyed by done. split.
    + cbn. apply Forall_forall. intros d Hd.
      apply list_elem_of_In, filter_In in Hd as [_ Hd].
      by apply negb_true_iff in Hd.
    + intros req' e'. by rewrite get_root_eq.
Qed.

Lemma delete_person_is_idempotent_witness :
  ∃ w', delete_person (Sample.req [("id", Sample.ann_id)] ∅) Sample.e0 Sample.w0
        = (w', send (VObj {[ "deletedPersonId" := VStr Sample.ann_id ]}))
        ∧ people (store w') = [Sample.bob; Sample.cid].
Proof.
  destruct (delete_person_is_idempotent
              (Sample.req [("id", Sample.ann_id)] ∅) Sample.e0 Sample.w0
              Sample.ann_id Sample.ann_id) as (w' & H & _);
    [by_eval | by_eval |].
  exists w'. split; [exact H|].
  rewrite delete_person_eq in H. vm_compute in H. by injection H as <-.
Defined.

(** ** PATCH /person/:id *)

Lemma patch_person_eq (req : request) (e : env) (w : world) :
  patch_person req e w =
  match run_validators patch_person_validators req w with
  | [] =>
      match ObjectId (param req "id") with
      | Ok o =>
          match updateOne (by_id o)
                  (USet (<["updatedAt" := VNum (inject_Z (Date_now e w))]> (body req)))
                  (people (store w)) with
          | Ok stored =>
              (with_people w (Date_now e w) stored,
               send (VObj {[ "updatedPersonId" := VStr (param req "id") ]}))
          | Throw err => (w, sendError err)
          end
      | Throw err => (w, sendError err)
      end
  | errors => (w, bad_request errors)
  end.
Proof.
  unfold patch_person, route, try_catch, validationResult.
  destruct (run_validators patch_person_validators req w); [|done].
  cbn [isEmpty negb]. destruct (ObjectId (param req "id")); [|done].
  cbn [mbind result_bind]. unfold by_id. by destruct (updateOne _ _ _).
Qed.

Lemma patch_person_validators_pass (req : request) (w : world) :
  validatePersonId (store w) (param req "id") = true →
  patch_body_validator (body req) = true →
  run_validators patch_person_validators req w = [].
Proof.
  intros H1 H2. unfold run_validators, patch_person_validators.
  cbn [mbind list_bind mapM app]. unfold param_custom, body_custom.
  by rewrite H1, H2.
Qed.

Lemma includes_elem_of (l : list string) (key : string) :
  includes l key = true ↔ key ∈ l.
Proof.
  unfold includes. rewrite existsb_exists. split.
  - intros (x & Hx & Heq). apply String.eqb_eq in Heq as ->. by apply list_elem_of_In.
  - intros H. exists key. split; [by apply list_elem_of_In | apply String.eqb_refl].
Qed.

(** A body whose keys all lie in the allowed set passes the body check. *)
Lemma patch_body_validator_subset (b : doc) :
  dom b ⊆@{gset string} list_to_set allowedFields → patch_body_validator b = true.
Proof.
  intros Hsub. unfold patch_body_validator.
  destruct (existsb _ _) eqn:E; [|done]. exfalso.
  apply existsb_exists in E as (key & Hin & Hnot).
  apply negb_true_iff in Hnot.
  assert (key ∈ dom b) as Hdom.
  { unfold Object_keys in Hin. apply list_elem_of_In, list_elem_of_fmap in Hin
      as ([k v] & -> & Hkv). apply elem_of_map_to_list in Hkv.
    apply elem_of_dom. by exists v. }
  apply Hsub, elem_of_list_to_set, includes_elem_of in Hdom. congruence.
Qed.

(** C8. A PATCH whose id is valid and whose body has only keys among name,
    lastname and age answers 200 with [{updatedPersonId: id}]; in the
    stored person it sets each provided field to the provided value, sets
    [updatedAt] to the time read by the handler, which is not before the
    time at the start of the call, and leaves every other field, every
    other person, the pets and the cars as they were. *)
Theorem patch_person_sets_given_fields (req : request) (e : env) (w : world)
    (id : string) :
  params req !! "id" = Some id →
  validatePersonId (store w) id = true →
  dom (body req) ⊆@{gset string} list_to_set allowedFields →
  ∃ o before d d' after,
    ObjectId id = Ok o
    ∧ first_with_id o before d after (people (store w))
    ∧ patch_person req e w
      = (with_people w (Date_now e w) (before ++ d' :: after),
         send (VObj {[ "updatedPersonId" := VStr id ]}))
    ∧ (clock w ≤ Date_now e w)%Z
    ∧ d' !! "updatedAt" = Some (VNum (inject_Z (Date_now e w)))
    ∧ (∀ k v, body req !! k = Some v → d' !! k = Some v)
    ∧ (∀ k, body req !! k = None → k ≠ "updatedAt" → d' !! k = d !! k).
Proof.
  intros Hid Hvalid Hsub. apply param_lookup in Hid.
  destruct (references_first _ _ Hvalid) as (o & before & d & after & Ho & Hfirst).
  exists o, before, d,
    (<["updatedAt" := VNum (inject_Z (Date_now e w))]> (body req) ∪ d), after.
  split; [done|]. split; [done|]. split; [|split; [|split; [|split]]].
  - rewrite patch_person_eq, patch_person_validators_pass, Hid, Ho;
      [|by rewrite Hid|by apply patch_body_validator_subset].
    destruct Hfirst as (-> & Hb & Hd). by rewrite updateOne_first.
  - unfold Date_now. lia.
  - apply lookup_union_Some_l. by rewrite lookup_insert_eq.
  - intros k v Hk. apply lookup_union_Some_l.
    rewrite lookup_insert_ne; [done|]. intros <-.
    assert ("updatedAt" ∈ dom (body req)) as Hdom by (apply elem_of_dom; eauto).
    apply Hsub in Hdom. vm_compute in Hdom. discriminate Hdom.
  - intros k Hk Hne. rewrite lookup_union_r; [done|].
    by rewrite lookup_insert_ne.
Qed.

Lemma patch_person_sets_given_fields_witness :
  ∃ w',
    patch_person (Sample.req [("id", Sample.ann_id)] {[ "age" := VNum 31 ]})
      Sample.e0 Sample.w0
    = (w', send (VObj {[ "updatedPersonId" := VStr Sample.ann_id ]})).
Proof.
  destruct (patch_person_sets_given_fields
              (Sample.req [("id", Sample.ann_id)] {[ "age" := VNum 31 ]})
              Sample.e0 Sample.w0 Sample.ann_id)
    as (o & before & d & d' & after & _ & _ & H & _).
  - by_eval.
  - by_eval.
  - by_decide.
  - eexists. exact H.
Defined.

(** C10. A PATCH with the empty body and a valid id records no validation
    error, answers 200 with [{updatedPersonId: id}], and changes the stored
    person by setting [updatedAt] and nothing else. *)
Theorem patch_person_empty_body (req : request) (e : env) (w : world) (id : string) :
  params req !! "id" = Some id →
  validatePersonId (store w) id = true →
  body req = ∅ →
  patch_body_validator (body req) = true
  ∧ run_validators patch_person_validators req w = []
  ∧ ∃ o before d after,
      ObjectId id = Ok o
      ∧ first_with_id o before d after (people (store w))
      ∧ patch_person req e w
        = (with_people w (Date_now e w)
             (before ++ <["updatedAt" := VNum (inject_Z (Date_now e w))]> d :: after),
           send (VObj {[ "updatedPersonId" := VStr id ]})).
Proof.
  intros Hid Hvalid Hbody. apply param_lookup in Hid.
  assert (patch_body_validator (body req) = true) as Hpass by (by rewrite Hbody).
  split; [done|].
  assert (run_validators patch_person_validators req w = []) as Hnone
    by (apply patch_person_validators_pass; [by rewrite Hid | done]).
  split; [done|].
  destruct (references_first _ _ Hvalid) as (o & before & d & after & Ho & Hfirst).
  exists o, before, d, after. split; [done|]. split; [done|].
  rewrite patch_person_eq, Hnone, Hid, Ho, Hbody.
  destruct Hfirst as (-> & Hb & Hd). rewrite updateOne_first by done.
  cbn [apply_update mbind result_bind].
  by rewrite <- insert_union_l, (left_id_L ∅ (∪)).
Qed.

Lemma patch_person_empty_body_witness :
  ∃ before d after,
    patch_person (Sample.req [("id", Sample.bob_id)] ∅) Sample.e0 Sample.w0
    = (with_people Sample.w0 1005
         (before ++ <["updatedAt" := VNum 1005]> d :: after),
       send (VObj {[ "updatedPersonId" := VStr Sample.bob_id ]})).
Proof.
  destruct (patch_person_empty_body
              (Sample.req [("id", Sample.bob_id)] ∅) Sample.e0 Sample.w0 Sample.bob_id)
    as (_ & _ & o & before & d & after & _ & _ & H);
    [by_eval ..|].
  exists before, d, after. exact H.
Defined.

(** ** POST / *)

Lemma post_root_eq (req : request) (e : env) (w : world) :
  post_root req e w =
  match run_validators post_root_validators req w with
  | [] =>
      match insertOne (Person (body req)) (generated_id e) (people (store w)) with
      | Ok (stored, person) => (with_people w (clock w) stored, send (VObj person))
      | Throw err => (w, sendError err)
      end
  | errors => (w, bad_request errors)
  end.
Proof.
  unfold post_root, route, try_catch, validationResult.
  destruct (run_validators post_root_validators req w); [|done].
  cbn [isEmpty negb]. by destruct (insertOne _ _ _) as [[? ?]|].
Qed.

(** The chains of POST / record nothing exactly when the three fields are
    there, name and lastname are strings and age passes [isFloat]. *)
Lemma post_root_validators_none (req : request) (w : world) :
  run_validators post_root_validators req w = [] ↔
  isString (body req !! "name") = true
  ∧ isString (body req !! "lastname") = true
  ∧ isFloat 1 150 (body req !! "age") = true.
Proof.
  unfold run_validators, post_root_validators, body_fields.
  cbn -[isFloat isString exists_].
  destruct (body req !! "age") as [v|];
    [destruct (isFloat 1 150 (Some v)) eqn:EF|];
    destruct (body req !! "name") as [[]|], (body req !! "lastname") as [[]|];
    cbn -[isFloat]; rewrite ?EF; cbn;
    (split; [intros H; first [discriminate H | done] | intros (? & ? & ?); done]).
Qed.

Lemma Person_lookup (b : doc) (k : string) :
  k ∈ ["name"; "lastname"; "age"] → Person b !! k = b !! k.
Proof.
  intros Hk. unfold Person. destruct (b !! k) as [v|] eqn:E.
  - by apply map_lookup_filter_Some.
  - apply map_lookup_filter_None. by left.
Qed.

Lemma Person_no_id (b : doc) : Person b !! "_id" = None.
Proof.
  unfold Person. apply map_lookup_filter_None. right. intros v _ Hin.
  cbn in Hin. by apply (bool_decide_pack _) in Hin.
Qed.

Lemma insertOne_fresh (d : doc) (g : string) (c : list doc) :
  d !! "_id" = None →
  Forall (λ x, matches (by_id g) x = false) c →
  insertOne d g c = Ok (c ++ [<["_id" := VOid g]> d], <["_id" := VOid g]> d).
Proof.
  intros Hd Hfresh. unfold insertOne. rewrite Hd, lookup_insert_eq. cbn [default].
  destruct (existsb _ c) eqn:E; [|done]. exfalso.
  apply existsb_exists in E as (x & Hx & Hm).
  rewrite Forall_forall in Hfresh.
  apply list_elem_of_In, Hfresh in Hx. rewrite matches_by_id in Hx.
  unfold id in Hm. congruence.
Qed.

(** C4. For a body whose name and lastname are strings and whose age is a
    number in [1, 150], and an id generated by the driver that no stored
    person has, POST / appends exactly one document to the people, and
    answers 200 with that document: it carries the generated id and the
    submitted name, lastname and age. *)
Theorem post_root_creates_person (req : request) (e : env) (w : world)
    (n l : string) (a : Q) :
  body req !! "name" = Some (VStr n) →
  body req !! "lastname" = Some (VStr l) →
  body req !! "age" = Some (VNum a) →
  (1 <= a)%Q → (a <= 150)%Q →
  Forall (λ d, matches (by_id (generated_id e)) d = false) (people (store w)) →
  ∃ person,
    post_root req e w
    = (with_people w (clock w) (people (store w) ++ [person]), send (VObj person))
    ∧ person !! "_id" = Some (VOid (generated_id e))
    ∧ person !! "name" = Some (VStr n)
    ∧ person !! "lastname" = Some (VStr l)
    ∧ person !! "age" = Some (VNum a).
Proof.
  intros Hn Hl Ha Hlo Hhi Hfresh.
  exists (<["_id" := VOid (generated_id e)]> (Person (body req))).
  split; [|split; [|split; [|split]]].
  - rewrite post_root_eq.
    assert (run_validators post_root_validators req w = []) as ->.
    { apply post_root_validators_none. rewrite Hn, Hl, Ha. cbn.
      unfold in_range. apply Qle_bool_iff in Hlo, Hhi. by rewrite Hlo, Hhi. }
    by rewrite insertOne_fresh by (done || apply Person_no_id).
  - by rewrite lookup_insert_eq.
  - rewrite lookup_insert_ne by done. by rewrite Person_lookup by repeat constructor.
  - rewrite lookup_insert_ne by done. by rewrite Person_lookup by repeat constructor.
  - rewrite lookup_insert_ne by done. by rewrite Person_lookup by repeat constructor.
Qed.

Lemma post_root_creates_person_witness :
  ∃ person,
    post_root
      (Sample.req [] {[ "name" := VStr "Dan"; "lastname" := VStr "Fox"; "age" := VNum 42 ]})
      Sample.e0 Sample.w0
    = (with_people Sample.w0 1000 ([Sample.ann; Sample.bob; Sample.cid] ++ [person]),
       send (VObj person))
    ∧ person !! "_id" = Some (VOid Sample.new_id).
Proof.
  destruct (post_root_creates_person
              (Sample.req [] {[ "name" := VStr "Dan"; "lastname" := VStr "Fox";
                                "age" := VNum 42 ]})
              Sample.e0 Sample.w0 "Dan" "Fox" 42)
    as (person & H & Hid & _).
  - by_eval.
  - by_eval.
  - by_eval.
  - vm_compute; discriminate.
  - vm_compute; discriminate.
  - repeat constructor.
  - exists person. split; [exact H | exact Hid].
Defined.

(** ** The age of a stored person *)

Lemma isFloat_number (lo hi a : Q) :
  isFloat lo hi (Some (VNum a)) = true → (lo <= a)%Q ∧ (a <= hi)%Q.
Proof.
  cbn. unfold in_range. intros H. apply andb_true_iff in H as [H1 H2].
  split; by apply Qle_bool_iff.
Qed.

(** X8. On the insert path the age is checked: a POST / that answers 200 has
    stored the submitted age, and that age passed [isFloat({min: 1, max:
    150})]; when it is a number, it lies in [1, 150]. *)
Lemma post_root_stores_checked_age (req : request) (e : env) (w : world) :
  status (post_root req e w).2 = 200 →
  ∃ person v,
    post_root req e w
    = (with_people w (clock w) (people (store w) ++ [person]), send (VObj person))
    ∧ person !! "age" = Some v
    ∧ body req !! "age" = Some v
    ∧ isFloat 1 150 (Some v) = true
    ∧ ∀ a, v = VNum a → (1 <= a)%Q ∧ (a <= 150)%Q.
Proof.
  rewrite post_root_eq.
  destruct (run_validators post_root_validators req w) as [|err errs] eqn:E;
    [|discriminate].
  apply post_root_validators_none in E as (_ & _ & Hage).
  unfold insertOne. rewrite Person_no_id.
  destruct (existsb _ _); [discriminate|]. intros _.
  destruct (body req !! "age") as [v|] eqn:Hv; [|discriminate].
  eexists _, v. split; [reflexivity|].
  split; [|split; [done|split; [done|]]].
  - rewrite lookup_insert_ne by done. rewrite Person_lookup by repeat constructor.
    done.
  - intros a ->. by apply isFloat_number.
Qed.

(** C1. The update path does not check the age: on the sample store, a
    PATCH of Ann with body [{age: 500}] records no validation error,
    answers 200 and stores the age 500, which is outside [1, 150]. *)
Theorem patch_person_stores_unchecked_age :
  run_validators patch_person_validators
    (Sample.req [("id", Sample.ann_id)] {[ "age" := VNum 500 ]}) Sample.w0 = []
  ∧ patch_person (Sample.req [("id", Sample.ann_id)] {[ "age" := VNum 500 ]})
      Sample.e0 Sample.w0
    = (with_people Sample.w0 1005
         [ <["age" := VNum 500]> (<["updatedAt" := VNum 1005]> Sample.ann);
           Sample.bob; Sample.cid ],
       send (VObj {[ "updatedPersonId" := VStr Sample.ann_id ]}))
  ∧ in_range 1 150 500 = false.
Proof. vm_compute. done. Qed.

(** ** POST /person/:id/pet/:petId *)

Lemma run_param_custom (name : string) (v : db → string → bool)
    (req : request) (w : world) :
  run_validators [param_custom name v] req w = [] ↔ v (store w) (param req name) = true.
Proof.
  unfold run_validators, param_custom. cbn.
  destruct (v (store w) (param req name)); cbn; split; done.
Qed.

Lemma run_param_custom2 (n1 n2 : string) (v1 v2 : db → string → bool)
    (req : request) (w : world) :
  run_validators [param_custom n1 v1; param_custom n2 v2] req w = [] ↔
  v1 (store w) (param req n1) = true ∧ v2 (store w) (param req n2) = true.
Proof.
  unfold run_validators, param_custom. cbn.
  destruct (v1 (store w) (param req n1)), (v2 (store w) (param req n2)); cbn;
    split; (done || by intros []).
Qed.

Lemma add_pet_eq (req : request) (e : env) (w : world) :
  add_pet req e w =
  match run_validators add_pet_validators req w with
  | [] =>
      match ObjectId (param req "id"), ObjectId (param req "petId") with
      | Ok o, Ok p =>
          match updateOne (by_id o) (UPush "petIds" (VOid p)) (people (store w)) with
          | Ok stored =>
              (with_people w (clock w) stored,
               send (VObj {[ "addedPetId" := VStr (param req "petId");
                             "updatedPersonId" := VStr (param req "id") ]}))
          | Throw err => (w, sendError err)
          end
      | Throw err, _ | _, Throw err => (w, sendError err)
      end
  | errors => (w, bad_request errors)
  end.
Proof.
  unfold add_pet, route, try_catch, validationResult.
  destruct (run_validators add_pet_validators req w); [|done].
  cbn [isEmpty negb].
  destruct (ObjectId (param req "id")), (ObjectId (param req "petId")); try done.
  cbn [mbind result_bind]. unfold by_id. by destruct (updateOne _ _ _).
Qed.

Lemma with_people_twice (w : world) (t t' : Z) (c c' : list doc) :
  with_people (with_people w t c) t' c' = with_people w t' c'.
Proof. done. Qed.

(** One successful attachment: the validators passed, the person is there,
    its [petIds] was missing or an array, and the pet id went to its end. *)
Lemma add_pet_ok (req : request) (e : env) (w : world) (id petId : string) :
  params req !! "id" = Some id →
  params req !! "petId" = Some petId →
  status (add_pet req e w).2 = 200 →
  ∃ o p before d after l,
    ObjectId id = Ok o ∧ ObjectId petId = Ok p
    ∧ validatePetId (store w) petId = true
    ∧ first_with_id o before d after (people (store w))
    ∧ (d !! "petIds" = None ∧ l = [] ∨ d !! "petIds" = Some (VArr l))
    ∧ add_pet req e w
      = (with_people w (clock w)
           (before ++ <["petIds" := VArr (l ++ [VOid p])]> d :: after),
         send (VObj {[ "addedPetId" := VStr petId; "updatedPersonId" := VStr id ]})).
Proof.
  intros Hid Hpet Hok. apply param_lookup in Hid, Hpet.
  rewrite add_pet_eq, Hid, Hpet in Hok. rewrite add_pet_eq, Hid, Hpet.
  destruct (run_validators add_pet_validators req w) eqn:Hv;
    [|cbn in Hok; discriminate Hok].
  apply run_param_custom2 in Hv as [Hperson Hpetv].
  rewrite Hid in Hperson. rewrite Hpet in Hpetv.
  destruct (references_first _ _ Hperson) as (o & before & d & after & Ho & Hfirst).
  rewrite Ho in *.
  destruct (ObjectId petId) as [p|] eqn:Hp; [|cbn in Hok; discriminate Hok].
  pose proof Hfirst as (Hc & Hb & Hd).
  assert (updateOne (by_id o) (UPush "petIds" (VOid p)) (people (store w))
          = d' ← apply_update (UPush "petIds" (VOid p)) d; Ok (before ++ d' :: after))
    as Hu by (rewrite Hc; by apply updateOne_first).
  rewrite Hu in *. cbn [apply_update] in *.
  destruct (d !! "petIds") as [[]|] eqn:Hids; try (cbn in Hok; discriminate Hok).
  - exists o, p, before, d, after, l. repeat (split; [done|]).
    split; [by right | done].
  - exists o, p, before, d, after, []. repeat (split; [done|]).
    split; [by left | done].
Qed.

(** C6. When attaching a pet to a person succeeds, attaching the same pet
    again succeeds too, and the person's [petIds] then ends with that pet id
    twice: what was there before (nothing, or the array [l]) followed by the
    id and the id again. No other document changes. *)
Theorem add_pet_twice_duplicates (req : request) (e1 e2 : env) (w : world)
    (id petId : string) :
  params req !! "id" = Some id →
  params req !! "petId" = Some petId →
  status (add_pet req e1 w).2 = 200 →
  ∃ o p before d after l,
    ObjectId id = Ok o ∧ ObjectId petId = Ok p
    ∧ first_with_id o before d after (people (store w))
    ∧ (d !! "petIds" = None ∧ l = [] ∨ d !! "petIds" = Some (VArr l))
    ∧ add_pet req e2 (add_pet req e1 w).1
      = (with_people w (clock w)
           (before ++ <["petIds" := VArr (l ++ [VOid p; VOid p])]> d :: after),
         send (VObj {[ "addedPetId" := VStr petId; "updatedPersonId" := VStr id ]})).
Proof.
  intros Hid Hpet Hok.
  destruct (add_pet_ok _ _ _ _ _ Hid Hpet Hok)
    as (o & p & before & d & after & l & Ho & Hp & Hpetv & Hfirst & Hl & Hfst).
  exists o, p, before, d, after, l. repeat (split; [done|]).
  rewrite Hfst. cbn [fst].
  set (d1 := <["petIds" := VArr (l ++ [VOid p])]> d).
  set (w1 := with_people w (clock w) (before ++ d1 :: after)).
  assert (first_with_id o before d1 after (people (store w1))) as Hfirst1.
  { destruct Hfirst as (_ & Hb & Hd). split; [done|]. split; [done|].
    rewrite <- Hd. apply matches_by_id_same_id. by apply lookup_insert_ne. }
  apply param_lookup in Hid, Hpet.
  rewrite add_pet_eq, Hid, Hpet.
  assert (run_validators add_pet_validators req w1 = []) as ->.
  { apply run_param_custom2. rewrite Hid, Hpet. split; [|done].
    by eapply first_with_id_references. }
  rewrite Ho, Hp.
  destruct Hfirst1 as (Hc1 & Hb1 & Hd1). rewrite Hc1, updateOne_first by done.
  cbn [apply_update]. unfold d1 at 1. rewrite lookup_insert_eq.
  cbn [mbind result_bind]. unfold d1, w1.
  by rewrite with_people_twice, insert_insert_eq, <- app_assoc.
Qed.

Lemma add_pet_twice_duplicates_witness :
  ∃ before d after,
    add_pet (Sample.req [("id", Sample.bob_id); ("petId", Sample.rex_id)] ∅) Sample.e0
      (add_pet (Sample.req [("id", Sample.bob_id); ("petId", Sample.rex_id)] ∅)
         Sample.e0 Sample.w0).1
    = (with_people Sample.w0 1000
         (before
          ++ <["petIds" := VArr ([VOid Sample.rex_id; VOid Sample.tom_id]
                                 ++ [VOid Sample.rex_id; VOid Sample.rex_id])]> d
          :: after),
       send (VObj {[ "addedPetId" := VStr Sample.rex_id;
                     "updatedPersonId" := VStr Sample.bob_id ]})).
Proof.
  destruct (add_pet_twice_duplicates
              (Sample.req [("id", Sample.bob_id); ("petId", Sample.rex_id)] ∅)
              Sample.e0 Sample.e0 Sample.w0 Sample.bob_id Sample.rex_id)
    as (o & p & before & d & after & l & Ho & Hp & (Hc & Hb & Hd) & Hl & H);
    [by_eval ..|].
  exists before, d, after.
  injection Ho as <-. injection Hp as <-.
  assert (l = [VOid Sample.rex_id; VOid Sample.tom_id]) as <-; [|exact H].
  cbn in Hc.
  destruct before as [|x0 [|x1 [|x2 before]]]; cbn in Hc.
  - injection Hc as <- _. vm_compute in Hd. discriminate Hd.
  - injection Hc as _ <- _. destruct Hl as [[Hl _]|Hl]; vm_compute in Hl.
    + discriminate Hl.
    + by injection Hl as <-.
  - injection Hc as _ _ <- _. vm_compute in Hd. discriminate Hd.
  - injection Hc as _ _ _ Hc. by destruct before.
Defined.

(** ** GET /person/:id/car *)

Lemma get_car_eq (req : request) (e : env) (w : world) :
  get_car req e w
  = (w, send (VArr (VObj <$> (with_car (cars (store w)) <$> people (store w))))).
Proof.
  unfold get_car, route, try_catch, aggregate, car_pipeline.
  cbn [run_pipeline run_stage mbind result_bind collection String.eqb Ascii.eqb
       Bool.eqb foldr].
  do 4 f_equal. induction (people (store w)) as [|d c IH]; [done|].
  rewrite !fmap_cons. by f_equal.
Qed.

(** The join on an ObjectId is equality of ids. *)
Lemma join_matches_oid (c : string) (x : doc) :
  has_oid x = true →
  join_matches (Some (VOid c)) (x !! "_id") = true ↔ oid_of x = Some c.
Proof.
  intros Hx. rewrite <- matches_by_id_oid by done. rewrite matches_by_id.
  unfold join_matches, has_oid, oid_of in *.
  by destruct (x !! "_id") as [[]|].
Qed.

(** C3. GET /person/:id/car does not look at its request: whatever the id,
    it answers 200 with one document per person of the collection, in
    order, each being the person with [carId] removed and with a field
    [car] holding the cars joined to it, a car being joined when its [_id]
    equals the person's [carId]; the other fields are unchanged, and so is
    the world. *)
Theorem get_car_is_unscoped (req : request) (e : env) (w : world) :
  ∃ out,
    get_car req e w = (w, send (VArr (VObj <$> out)))
    ∧ (∀ req' e', get_car req' e' w = get_car req e w)
    ∧ length out = length (people (store w))
    ∧ ∀ i d, people (store w) !! i = Some d →
        ∃ d' joined,
          out !! i = Some d'
          ∧ d' !! "carId" = None
          ∧ d' !! "car" = Some (VArr (VObj <$> joined))
          ∧ joined = List.filter (λ c, join_matches (d !! "carId") (c !! "_id"))
                       (cars (store w))
          ∧ (∀ c x, d !! "carId" = Some (VOid c) → has_oid x = true →
               x ∈ joined ↔ x ∈ cars (store w) ∧ oid_of x = Some c)
          ∧ (∀ k, k ≠ "car" → k ≠ "carId" → d' !! k = d !! k).
Proof.
  exists (with_car (cars (store w)) <$> people (store w)).
  split; [apply get_car_eq|]. split; [intros; by rewrite !get_car_eq|].
  split; [apply length_fmap|].
  intros i d Hd. eexists (with_car (cars (store w)) d), _.
  split; [by rewrite list_lookup_fmap, Hd|].
  split; [apply lookup_delete_eq|].
  split; [unfold with_car; rewrite lookup_delete_ne by done; apply lookup_insert_eq|].
  split; [reflexivity|]. split.
  - intros c x Hc Hx. rewrite Hc, list_elem_of_In, filter_In, <- list_elem_of_In.
    by rewrite join_matches_oid.
  - intros k Hk1 Hk2. unfold with_car.
    rewrite lookup_delete_ne by done. by rewrite lookup_insert_ne.
Qed.

(** ** GET /person/:id/pets *)

Lemma filterM_pure {A : Type} (f : A → result bool) (g : A → bool) (l : list A) :
  (∀ x, f x = Ok (g x)) → filterM f l = Ok (List.filter g l).
Proof.
  intros Hfg. induction l as [|x l IH]; [done|].
  cbn [filterM List.filter]. rewrite Hfg, IH. cbn. by destruct (g x).
Qed.

Lemma well_keyed_app_r (c1 c2 : list doc) : well_keyed (c1 ++ c2) → well_keyed c2.
Proof.
  induction c1 as [|d c1 IH]; [done|]. intros H. apply IH.
  by apply well_keyed_cons in H.
Qed.

Lemma filter_none {A : Type} (p : A → bool) (l : list A) :
  Forall (λ x, p x = false) l → List.filter p l = [].
Proof. induction 1 as [|x l Hx _ IH]; [done|]. cbn. by rewrite Hx. Qed.

(** With unique ids, the query [{_id: o}] selects the one person of that id. *)
Lemma find_by_id_well_keyed (o : string) before d after (c : list doc) :
  well_keyed c → first_with_id o before d after c → find (by_id o) c = [d].
Proof.
  intros Hwf (-> & Hb & Hd). unfold find.
  rewrite List.filter_app, (filter_none _ _ Hb). cbn [List.filter app]. rewrite Hd.
  f_equal. apply filter_none.
  eapply well_keyed_head_unique; [|done]. by eapply well_keyed_app_r.
Qed.

Lemma get_pets_eq (req : request) (e : env) (w : world) :
  get_pets req e w =
  match run_validators get_pets_validators req w with
  | [] =>
      match ObjectId (param req "id") with
      | Ok o =>
          match aggregate (store w) (people (store w)) (pets_pipeline o) with
          | Ok result => (w, send (VArr (VObj <$> result)))
          | Throw err => (w, sendError err)
          end
      | Throw err => (w, sendError err)
      end
  | errors => (w, bad_request errors)
  end.
Proof.
  unfold get_pets, route, try_catch, validationResult.
  destruct (run_validators get_pets_validators req w); [|done].
  cbn [isEmpty negb]. destruct (ObjectId (param req "id")); [|done].
  cbn [mbind result_bind]. by destruct (aggregate _ _ _).
Qed.

Lemma pets_pipeline_run (s : db) (o : string) (d : doc) (ids : list value) :
  find (by_id o) (people s) = [d] →
  d !! "petIds" = Some (VArr ids) →
  aggregate s (people s) (pets_pipeline o)
  = Ok [ delete "petIds"
           (<["pets" := VArr (VObj <$> List.filter (in_pet_ids ids) (pets s))]> d) ].
Proof.
  intros Hfind Hids. unfold aggregate, pets_pipeline.
  cbn [run_pipeline]. cbn [run_stage]. fold (by_id o). rewrite Hfind.
  cbn [mbind result_bind mapM bind_lets eval_expr]. rewrite Hids.
  rewrite (filterM_pure _ (in_pet_ids ids)); [done|].
  intros p. rewrite lookup_insert_eq. cbn. unfold in_pet_ids.
  by destruct (existsb _ ids).
Qed.

Lemma in_pet_ids_oid (pids : list string) (p : doc) (x : string) :
  oid_of p = Some x → in_pet_ids (VOid <$> pids) p = true ↔ x ∈ pids.
Proof.
  unfold oid_of, in_pet_ids. destruct (p !! "_id") as [[]|]; try discriminate.
  intros [= ->]. cbn [default]. rewrite existsb_exists. split.
  - intros (y & Hy & Heq). apply list_elem_of_In, list_elem_of_fmap in Hy as (z & -> & Hz).
    by apply value_eqb_oid in Heq as ->.
  - intros Hx. exists (VOid x). split; [|by apply value_eqb_oid].
    by apply list_elem_of_In, list_elem_of_fmap_2.
Qed.

(** The ObjectIds of the pets the lookup finds: the ids of [petIds] that
    some stored pet carries. *)
Lemma found_pet_ids (pids : list string) (c : list doc) :
  list_to_set (omap oid_of (List.filter (in_pet_ids (VOid <$> pids)) c))
  =@{gset string} list_to_set pids ∩ list_to_set (omap oid_of c).
Proof.
  apply set_eq. intros x.
  rewrite elem_of_intersection, !elem_of_list_to_set, !list_elem_of_omap. split.
  - intros (p & Hp & Hx). apply list_elem_of_In, filter_In in Hp as [Hp Hin].
    split; [by eapply in_pet_ids_oid | exists p; by rewrite list_elem_of_In].
  - intros (Hx & p & Hp & Hpx). exists p. split; [|done].
    apply list_elem_of_In, filter_In. split; [by apply list_elem_of_In|].
    by eapply in_pet_ids_oid.
Qed.

(** C7, as the code has it. For a valid id of a stored person whose
    [petIds] is an array of ObjectIds, in a collection keyed by unique ids,
    GET /person/:id/pets answers 200 with a one-element array: the person
    with [petIds] removed and a field [pets] holding exactly the stored
    pets whose id occurs in [petIds]. Their ids are the ids of [petIds] that
    still reference a stored pet; they are all of [petIds] when every one
    of them references a stored pet. *)
Theorem get_pets_embeds_stored_pets (req : request) (e : env) (w : world)
    (id o : string) (before : list doc) (d : doc) (after : list doc)
    (pids : list string) :
  params req !! "id" = Some id →
  ObjectId id = Ok o →
  first_with_id o before d after (people (store w)) →
  well_keyed (people (store w)) →
  d !! "petIds" = Some (VArr (VOid <$> pids)) →
  ∃ found,
    get_pets req e w
    = (w, send (VArr [VObj (delete "petIds" (<["pets" := VArr (VObj <$> found)]> d))]))
    ∧ (∀ p, p ∈ found ↔ p ∈ pets (store w) ∧ in_pet_ids (VOid <$> pids) p = true)
    ∧ list_to_set (omap oid_of found)
      =@{gset string} list_to_set pids ∩ list_to_set (omap oid_of (pets (store w)))
    ∧ (list_to_set pids ⊆@{gset string} list_to_set (omap oid_of (pets (store w))) →
       list_to_set (omap oid_of found) =@{gset string} list_to_set pids).
Proof.
  intros Hid Ho Hfirst Hwf Hids. apply param_lookup in Hid.
  exists (List.filter (in_pet_ids (VOid <$> pids)) (pets (store w))).
  split; [|split; [|split]].
  - rewrite get_pets_eq.
    assert (run_validators get_pets_validators req w = []) as ->.
    { apply run_param_custom. rewrite Hid. by eapply first_with_id_references. }
    rewrite Hid, Ho.
    by erewrite pets_pipeline_run by (done || by eapply find_by_id_well_keyed).
  - intros p. by rewrite list_elem_of_In, filter_In, <- list_elem_of_In.
  - apply found_pet_ids.
  - intros Hsub. rewrite found_pet_ids. by apply subseteq_intersection_1_L.
Qed.

Lemma get_pets_embeds_stored_pets_witness :
  ∃ found,
    get_pets (Sample.req [("id", Sample.bob_id)] ∅) Sample.e0 Sample.w0
    = (Sample.w0,
       send (VArr [VObj (delete "petIds"
                           (<["pets" := VArr (VObj <$> found)]> Sample.bob))]))
    ∧ list_to_set (omap oid_of found)
      =@{gset string} list_to_set [Sample.rex_id; Sample.tom_id].
Proof.
  destruct (get_pets_embeds_stored_pets
              (Sample.req [("id", Sample.bob_id)] ∅) Sample.e0 Sample.w0
              Sample.bob_id Sample.bob_id [Sample.ann] Sample.bob [Sample.cid]
              [Sample.rex_id; Sample.tom_id])
    as (found & H & _ & _ & Hall).
  - by_eval.
  - by_eval.
  - split; [reflexivity|]. split; [|by_eval].
    repeat constructor.
  - split; [by_eval|]. by_decide.
  - by_eval.
  - exists found. split; [exact H|]. apply Hall.
    by_decide.
Defined.

(** C7, as stated, fails on a stale pet id. Bob's [petIds] holds the ids of
    Rex and Tom, and Tom is no longer stored: the answer embeds Rex alone, so
    the ids of [pets] are not the ids of [petIds]. *)
Lemma get_pets_drops_stale_ids :
  validatePersonId (store Sample.w_stale) Sample.bob_id = true
  ∧ Sample.bob !! "petIds" = Some (VArr [VOid Sample.rex_id; VOid Sample.tom_id])
  ∧ get_pets (Sample.req [("id", Sample.bob_id)] ∅) Sample.e0 Sample.w_stale
    = (Sample.w_stale,
       send (VArr [VObj (delete "petIds"
                           (<["pets" := VArr [VObj Sample.rex]]> Sample.bob))]))
  ∧ list_to_set (omap oid_of [Sample.rex])
    ≠@{gset string} list_to_set [Sample.rex_id; Sample.tom_id].
Proof.
  split; [by_eval|]. split; [by_eval|].
  split; [by_eval|].
  intros H. assert (Sample.tom_id ∈@{gset string} list_to_set (omap oid_of [Sample.rex])) as Hin.
  { rewrite H. apply elem_of_list_to_set. repeat constructor. }
  vm_compute in Hin. discriminate Hin.
Qed.

(** ** GET /average/age *)

Lemma mapM_pure {A B : Type} (f : A → result B) (g : A → B) (l : list A) :
  (∀ x, f x = Ok (g x)) → mapM f l = Ok (g <$> l).
Proof.
  intros Hfg. induction l as [|x l IH]; [done|].
  cbn [mapM]. by rewrite Hfg, IH.
Qed.

Lemma get_average_age_eq (req : request) (e : env) (w : world) :
  get_average_age req e w
  = (w, send (VArr (VObj <$>
        match people (store w) with
        | [] => []
        | _ => [ {[ "_id" := VStr "average"; "average" := avg (ages (people (store w))) ]} ]
        end))).
Proof.
  unfold get_average_age, route, try_catch, aggregate, average_pipeline.
  cbn [run_pipeline run_stage].
  destruct (people (store w)) as [|d c] eqn:E; [done|].
  cbn [run_accumulators run_accumulator].
  rewrite (mapM_pure _ (λ d, d !! "age")) by done.
  cbn [mbind result_bind]. by rewrite insert_empty.
Qed.





(** The mean is a double, not the exact quotient: the ages 10, 20 and 25
    average to 18.333333333333332. *)
Lemma avg_is_rounded :
  avg [Some (VNum 10); Some (VNum 20); Some (VNum 25)]
  = VNum (5160374573028693 # 281474976710656).
Proof. by_eval. Qed.





(** ** Validation failures *)

Lemma add_car_eq (req : request) (e : env) (w : world) :
  add_car req e w =
  match run_validators add_car_validators req w with
  | [] =>
      match ObjectId (param req "id"), ObjectId (param req "carId") with
      | Ok o, Ok c =>
          match updateOne (by_id o) (USet {[ "carId" := VOid c ]}) (people (store w)) with
          | Ok stored =>
              (with_people w (clock w) stored,
               send (VObj {[ "updatedPersonId" := VStr (param req "id");
                             "newCarId" := VStr (param req "carId") ]}))
          | Throw err => (w, sendError err)
          end
      | Throw err, _ | _, Throw err => (w, sendError err)
      end
  | errors => (w, bad_request errors)
  end.
Proof.
  unfold add_car, route, try_catch, validationResult.
  destruct (run_validators add_car_validators req w); [|done].
  cbn [isEmpty negb].
  destruct (ObjectId (param req "id")), (ObjectId (param req "carId")); try done.
  cbn [mbind result_bind]. unfold by_id. by destruct (updateOne _ _ _).
Qed.

(** X10. The routes that consult [validationResult] answer a failed validation
    with 400 and the recorded errors, and leave the world as it was. *)
Lemma checked_routes_reject (req : request) (e : env) (w : world) :
  (run_validators post_root_validators req w ≠ [] →
   post_root req e w = (w, bad_request (run_validators post_root_validators req w)))
  ∧ (run_validators patch_person_validators req w ≠ [] →
     patch_person req e w = (w, bad_request (run_validators patch_person_validators req w)))
  ∧ (run_validators add_pet_validators req w ≠ [] →
     add_pet req e w = (w, bad_request (run_validators add_pet_validators req w)))
  ∧ (run_validators get_pets_validators req w ≠ [] →
     get_pets req e w = (w, bad_request (run_validators get_pets_validators req w)))
  ∧ (run_validators add_car_validators req w ≠ [] →
     add_car req e w = (w, bad_request (run_validators add_car_validators req w))).
Proof.
  rewrite post_root_eq, patch_person_eq, add_pet_eq, get_pets_eq, add_car_eq.
  repeat split; intros H; by destruct (run_validators _ req w).
Qed.

(** C2. DELETE /person/:id and GET /person/:id/car declare the id validator
    and never consult its result. On the sample store, with the id "xyz" the
    validator records an error, yet GET .../car answers 200 (with the three
    people) and DELETE answers 500 when [ObjectId] throws; with a
    well-formed id that no person has the validator records an error too,
    and DELETE calls the store and answers 200. *)
Theorem unchecked_routes_ignore_validation :
  run_validators get_car_validators (Sample.req [("id", "xyz")] ∅) Sample.w0 ≠ []
  ∧ (∃ out, get_car (Sample.req [("id", "xyz")] ∅) Sample.e0 Sample.w0
            = (Sample.w0, send (VArr out)) ∧ length out = 3)
  ∧ run_validators delete_person_validators (Sample.req [("id", "xyz")] ∅) Sample.w0 ≠ []
  ∧ status (delete_person (Sample.req [("id", "xyz")] ∅) Sample.e0 Sample.w0).2 = 500
  ∧ run_validators delete_person_validators
      (Sample.req [("id", Sample.new_id)] ∅) Sample.w0 ≠ []
  ∧ delete_person (Sample.req [("id", Sample.new_id)] ∅) Sample.e0 Sample.w0
    = (Sample.w0, send (VObj {[ "deletedPersonId" := VStr Sample.new_id ]})).
Proof.
  split; [vm_compute; discriminate|].
  split; [rewrite get_car_eq; eexists; split; [reflexivity|]; reflexivity|].
  split; [vm_compute; discriminate|].
  split; [by_eval|].
  split; [vm_compute; discriminate|].
  by_eval.
Qed.

(** ** The routes keep the people keyed by unique ids *)

Lemma has_oid_is_Some (d : doc) : has_oid d = true ↔ is_Some (oid_of d).
Proof.
  unfold has_oid. destruct (oid_of d); split; (done || by intros []) || eauto.
Qed.

(** Being well keyed is a property of the list of ids alone. *)
Lemma well_keyed_ids (c c' : list doc) :
  oid_of <$> c' = oid_of <$> c → well_keyed c → well_keyed c'.
Proof.
  intros Hids [Hall Hnodup]. split; [|by rewrite Hids].
  apply forallb_forall. intros d Hd. apply has_oid_is_Some.
  apply list_elem_of_In, (list_elem_of_fmap_2 oid_of) in Hd. rewrite Hids in Hd.
  apply list_elem_of_fmap in Hd as (d0 & -> & Hd0).
  apply has_oid_is_Some. rewrite forallb_forall in Hall.
  by apply Hall, list_elem_of_In.
Qed.

Lemma deleteOne_sublist q (c : list doc) : deleteOne q c `sublist_of` c.
Proof.
  induction c as [|d c IH]; cbn [deleteOne]; [done|].
  destruct (matches q d); [by apply sublist_cons | by apply sublist_skip].
Qed.

Lemma well_keyed_sublist (c c' : list doc) :
  c' `sublist_of` c → well_keyed c → well_keyed c'.
Proof.
  intros Hsub [Hall Hnodup]. split.
  - apply forallb_forall. intros d Hd. rewrite forallb_forall in Hall.
    apply Hall, list_elem_of_In. eapply elem_of_sublist; [|done].
    by apply list_elem_of_In.
  - eapply sublist_NoDup; [done|]. by apply fmap_sublist.
Qed.

Lemma updateOne_same_ids q u (c c' : list doc) :
  (∀ d d', apply_update u d = Ok d' → d' !! "_id" = d !! "_id") →
  updateOne q u c = Ok c' → oid_of <$> c' = oid_of <$> c.
Proof.
  intros Hu. revert c'. induction c as [|d c IH]; intros c'; cbn [updateOne].
  - by intros [= <-].
  - destruct (matches q d).
    + destruct (apply_update u d) as [d'|] eqn:E; [|discriminate].
      intros [= <-]. rewrite !fmap_cons. f_equal.
      unfold oid_of. by rewrite (Hu _ _ E).
    + destruct (updateOne q u c) as [c''|]; [|discriminate].
      intros [= <-]. rewrite !fmap_cons. f_equal. by apply IH.
Qed.

Lemma apply_set_same_id (fields d d' : doc) :
  fields !! "_id" = None → apply_update (USet fields) d = Ok d' →
  d' !! "_id" = d !! "_id".
Proof. intros Hf [= <-]. by rewrite lookup_union_r. Qed.

Lemma apply_push_same_id (f : string) (v : value) (d d' : doc) :
  f ≠ "_id" → apply_update (UPush f v) d = Ok d' → d' !! "_id" = d !! "_id".
Proof.
  intros Hf. cbn. destruct (d !! f) as [[]|]; intros [= <-];
    by rewrite lookup_insert_ne.
Qed.

Lemma patch_body_validator_no_id (b : doc) :
  patch_body_validator b = true → b !! "_id" = None.
Proof.
  unfold patch_body_validator. destruct (existsb _ _) eqn:E; [discriminate|].
  intros _. destruct (b !! "_id") as [v|] eqn:Hv; [|done]. exfalso.
  assert (existsb (λ key, negb (includes allowedFields key)) (Object_keys b) = true)
    as Hex; [|congruence].
  apply existsb_exists. exists "_id". split; [|done].
  apply list_elem_of_In. unfold Object_keys.
  apply (list_elem_of_fmap_2 fst _ ("_id", v)). by apply elem_of_map_to_list.
Qed.

Lemma insertOne_well_keyed (d : doc) (g : string) (c c' : list doc) (d' : doc) :
  d !! "_id" = None → well_keyed c → insertOne d g c = Ok (c', d') → well_keyed c'.
Proof.
  intros Hd [Hall Hnodup]. unfold insertOne. rewrite Hd, lookup_insert_eq.
  cbn [default]. destruct (existsb _ c) eqn:E; [discriminate|]. intros [= <- <-].
  assert (oid_of (<["_id" := VOid g]> d) = Some g) as Hnew
    by (unfold oid_of; by rewrite lookup_insert_eq).
  split.
  - rewrite forallb_app, Hall. cbn. unfold has_oid. by rewrite Hnew.
  - rewrite fmap_app. apply NoDup_app. split; [done|]. split; [|apply NoDup_singleton].
    intros x Hx Hx'. apply list_elem_of_fmap in Hx as (d0 & -> & Hd0).
    apply list_elem_of_singleton in Hx'. rewrite Hnew in Hx'.
    assert (existsb (λ x, field_matches (VOid g) (x !! "_id")) c = true)
      as Hex; [|unfold id in E; congruence].
    apply existsb_exists. exists d0. split; [by apply list_elem_of_In|].
    rewrite <- matches_by_id. apply matches_by_id_oid; [|done].
    rewrite forallb_forall in Hall. by apply Hall, list_elem_of_In.
Qed.

(** * Further properties of the routes *)

(** ** GET /name/:name and GET /age/:age, unfolded *)

Lemma get_by_name_eq (req : request) (e : env) (w : world) :
  get_by_name req e w
  = (w, send (VArr (VObj <$> find [("name", VStr (param req "name"))]
                               (people (store w))))).
Proof. done. Qed.

Lemma get_by_age_eq (Number : string → jsnumber) (req : request) (e : env)
    (w : world) :
  get_by_age Number req e w =
  match run_validators (get_by_age_validators Number) req w with
  | [] => (w, send (VArr (VObj <$> find_age (Number (param req "age"))
                                     (people (store w)))))
  | errors => (w, bad_request errors)
  end.
Proof.
  unfold get_by_age, route, try_catch, validationResult.
  by destruct (run_validators _ req w).
Qed.

(** ** What the routes leave alone *)

(** X1. The routes registered with [router.get] never change the world: not
    the store, not the clock, whatever the request and whether they answer
    200, 400 or 500. *)
Theorem read_routes_change_nothing (Number : string → jsnumber)
    (req : request) (e : env) (w : world) :
  Forall (λ r : request → env → world → world * response, (r req e w).1 = w)
    (read_routes Number).
Proof.
  repeat apply Forall_cons_2; [..|apply Forall_nil_2].
  - by rewrite get_root_eq.
  - by rewrite get_by_name_eq.
  - rewrite get_by_age_eq. by destruct (run_validators _ req w).
  - by rewrite get_average_age_eq.
  - rewrite get_pets_eq. destruct (run_validators _ req w); [|done].
    destruct (ObjectId _); [|done]. by destruct (aggregate _ _ _).
  - by rewrite get_car_eq.
Qed.

(** X2. A request that is not answered 200 has changed nothing: every route
    validates, converts its ids and makes its one storage call before it
    writes, so a 400 or a 500 leaves the world as it was. *)
Theorem failed_requests_change_nothing (Number : string → jsnumber)
    (req : request) (e : env) (w : world) :
  Forall (λ r : request → env → world → world * response,
            status (r req e w).2 ≠ 200 → (r req e w).1 = w)
    (all_routes Number).
Proof.
  repeat apply Forall_cons_2; [..|apply Forall_nil_2].
  - by rewrite get_root_eq.
  - rewrite post_root_eq. destruct (run_validators _ req w); [|done].
    by destruct (insertOne _ _ _) as [[c' d']|].
  - rewrite delete_person_eq. by destruct (ObjectId _).
  - rewrite patch_person_eq. destruct (run_validators _ req w); [|done].
    destruct (ObjectId _); [|done]. by destruct (updateOne _ _ _).
  - by rewrite get_by_name_eq.
  - rewrite get_by_age_eq. by destruct (run_validators _ req w).
  - by rewrite get_average_age_eq.
  - rewrite add_pet_eq. destruct (run_validators _ req w); [|done].
    destruct (ObjectId _); [|done]. destruct (ObjectId _); [|done].
    by destruct (updateOne _ _ _).
  - rewrite get_pets_eq. destruct (run_validators _ req w); [|done].
    destruct (ObjectId _); [|done]. by destruct (aggregate _ _ _).
  - by rewrite get_car_eq.
  - rewrite add_car_eq. destruct (run_validators _ req w); [|done].
    destruct (ObjectId _); [|done]. destruct (ObjectId _); [|done].
    by destruct (updateOne _ _ _).
Qed.

(** X3. No route writes to the pets or to the cars: the two collections are
    only read, by the id validators and by the lookups. *)
Theorem routes_never_write_pets_or_cars (Number : string → jsnumber)
    (req : request) (e : env) (w : world) :
  Forall (λ r : request → env → world → world * response,
            pets (store (r req e w).1) = pets (store w)
            ∧ cars (store (r req e w).1) = cars (store w))
    (all_routes Number).
Proof.
  repeat apply Forall_cons_2; [..|apply Forall_nil_2].
  - by rewrite get_root_eq.
  - rewrite post_root_eq. destruct (run_validators _ req w); [|done].
    by destruct (insertOne _ _ _) as [[c' d']|].
  - rewrite delete_person_eq. by destruct (ObjectId _).
  - rewrite patch_person_eq. destruct (run_validators _ req w); [|done].
    destruct (ObjectId _); [|done]. by destruct (updateOne _ _ _).
  - by rewrite get_by_name_eq.
  - rewrite get_by_age_eq. by destruct (run_validators _ req w).
  - by rewrite get_average_age_eq.
  - rewrite add_pet_eq. destruct (run_validators _ req w); [|done].
    destruct (ObjectId _); [|done]. destruct (ObjectId _); [|done].
    by destruct (updateOne _ _ _).
  - rewrite get_pets_eq. destruct (run_validators _ req w); [|done].
    destruct (ObjectId _); [|done]. by destruct (aggregate _ _ _).
  - by rewrite get_car_eq.
  - rewrite add_car_eq. destruct (run_validators _ req w); [|done].
    destruct (ObjectId _); [|done]. destruct (ObjectId _); [|done].
    by destruct (updateOne _ _ _).
Qed.

(** X4. Every route leaves the people keyed by unique ObjectIds when it found
    them so: the invariant the properties of DELETE and of the pets lookup
    rely on holds in every world reached from one where it holds, such as
    the empty store. *)
Theorem routes_keep_people_well_keyed (Number : string → jsnumber)
    (req : request) (e : env) (w : world) :
  well_keyed (people (store w)) →
  Forall (λ r : request → env → world → world * response,
            well_keyed (people (store (r req e w).1)))
    (all_routes Number).
Proof.
  intros Hwf. repeat apply Forall_cons_2; [..|apply Forall_nil_2].
  - by rewrite get_root_eq.
  - rewrite post_root_eq. destruct (run_validators _ req w); [|done].
    destruct (insertOne _ _ _) as [[c' d']|] eqn:E; [|done].
    eapply insertOne_well_keyed; [apply Person_no_id|done..].
  - rewrite delete_person_eq. destruct (ObjectId _); [|done].
    eapply well_keyed_sublist; [apply deleteOne_sublist|done].
  - rewrite patch_person_eq.
    destruct (run_validators _ req w) eqn:Hv; [|done].
    destruct (ObjectId _); [|done]. destruct (updateOne _ _ _) as [c'|] eqn:E; [|done].
    eapply well_keyed_ids; [|done]. eapply updateOne_same_ids; [|done].
    intros d d'. apply apply_set_same_id. rewrite lookup_insert_ne by done.
    apply patch_body_validator_no_id.
    unfold run_validators, patch_person_validators, param_custom, body_custom in Hv.
    cbn in Hv. destruct (validatePersonId _ _); [|discriminate].
    by destruct (patch_body_validator (body req)).
  - done.
  - rewrite get_by_age_eq. by destruct (run_validators _ req w).
  - by rewrite get_average_age_eq.
  - rewrite add_pet_eq. destruct (run_validators _ req w); [|done].
    destruct (ObjectId _); [|done]. destruct (ObjectId _); [|done].
    destruct (updateOne _ _ _) as [c'|] eqn:E; [|done].
    eapply well_keyed_ids; [|done]. eapply updateOne_same_ids; [|done].
    intros d d'. by apply apply_push_same_id.
  - rewrite get_pets_eq. destruct (run_validators _ req w); [|done].
    destruct (ObjectId _); [|done]. by destruct (aggregate _ _ _).
  - by rewrite get_car_eq.
  - rewrite add_car_eq. destruct (run_validators _ req w); [|done].
    destruct (ObjectId _); [|done]. destruct (ObjectId _); [|done].
    destruct (updateOne _ _ _) as [c'|] eqn:E; [|done].
    eapply well_keyed_ids; [|done]. eapply updateOne_same_ids; [|done].
    intros d d'. by apply apply_set_same_id.
Qed.

Lemma routes_keep_people_well_keyed_witness :
  Forall (λ r : request → env → world → world * response,
            well_keyed (people (store
              (r (Sample.req [("id", Sample.ann_id)] {[ "age" := VNum 31 ]})
                 Sample.e0 Sample.w0).1)))
    (all_routes Sample.Number).
Proof.
  apply (routes_keep_people_well_keyed Sample.Number
           (Sample.req [("id", Sample.ann_id)] {[ "age" := VNum 31 ]})
           Sample.e0 Sample.w0).
  split; [by_eval | by_decide].
Defined.

(** ** How many people there are *)

Lemma updateOne_length q u (c c' : list doc) :
  updateOne q u c = Ok c' → length c' = length c.
Proof.
  revert c'. induction c as [|d c IH]; intros c'; cbn [updateOne].
  - by intros [= <-].
  - destruct (matches q d).
    + destruct (apply_update u d); [|discriminate]. by intros [= <-].
    + destruct (updateOne q u c) as [c''|]; [|discriminate].
      intros [= <-]. cbn. f_equal. by apply IH.
Qed.

Lemma deleteOne_length q (c : list doc) :
  length (deleteOne q c) ≤ length c ≤ S (length (deleteOne q c)).
Proof.
  induction c as [|d c IH]; cbn [deleteOne]; [cbn; lia|].
  destruct (matches q d); cbn; lia.
Qed.

(** X5. Only POST / adds a person, exactly one and only when it answers 200;
    only DELETE removes one, at most one per request; the three updating
    routes leave the number of people as it was. *)
Theorem people_count (req : request) (e : env) (w : world) :
  length (people (store (post_root req e w).1))
  = length (people (store w))
    + (if decide (status (post_root req e w).2 = 200) then 1 else 0)
  ∧ length (people (store (delete_person req e w).1)) ≤ length (people (store w))
  ∧ length (people (store w)) ≤ S (length (people (store (delete_person req e w).1)))
  ∧ Forall (λ r : request → env → world → world * response,
              length (people (store (r req e w).1)) = length (people (store w)))
      [patch_person; add_pet; add_car].
Proof.
  split; [|split; [|split]].
  - rewrite post_root_eq.
    destruct (run_validators _ req w);
      [|cbn [fst snd bad_request status_send status]; case_decide; [done|lia]].
    unfold insertOne.
    destruct (existsb _ _);
      [cbn [fst snd sendError status_send status]; case_decide; [done|lia]|].
    cbn [fst snd with_people store set_people people send status].
    rewrite length_app. case_decide; [cbn; lia|done].
  - rewrite delete_person_eq. destruct (ObjectId _); [|done].
    apply deleteOne_length.
  - rewrite delete_person_eq. destruct (ObjectId _); [|cbn; lia].
    apply deleteOne_length.
  - repeat apply Forall_cons_2; [..|apply Forall_nil_2].
    + rewrite patch_person_eq. destruct (run_validators _ req w); [|done].
      destruct (ObjectId _); [|done].
      destruct (updateOne _ _ _) eqn:E; [|done]. by eapply updateOne_length.
    + rewrite add_pet_eq. destruct (run_validators _ req w); [|done].
      destruct (ObjectId _); [|done]. destruct (ObjectId _); [|done].
      destruct (updateOne _ _ _) eqn:E; [|done]. by eapply updateOne_length.
    + rewrite add_car_eq. destruct (run_validators _ req w); [|done].
      destruct (ObjectId _); [|done]. destruct (ObjectId _); [|done].
      destruct (updateOne _ _ _) eqn:E; [|done]. by eapply updateOne_length.
Qed.

(** ** What the validators report *)

Lemma run_validators_elem (validators : list chain) (c : chain) (req : request)
    (w : world) (x : verror) :
  c ∈ validators → x ∈ c req (store w) → x ∈ run_validators validators req w.
Proof. intros Hc Hx. unfold run_validators. apply list_elem_of_bind. eauto. Qed.

Lemma body_fields_elem (fields : list string) (message : string)
    (validator : option value → bool) (req : request) (s : db) (f : string) :
  f ∈ fields → validator (body req !! f) = false →
  {| err_value := body req !! f; err_msg := message; err_param := f;
     err_location := "body" |} ∈ body_fields fields message validator req s.
Proof.
  intros Hf Hv. unfold body_fields. apply list_elem_of_bind. exists f.
  split; [|done]. cbn. rewrite Hv. apply list_elem_of_here.
Qed.

Lemma post_root_rejected (req : request) (e : env) (w : world) (x : verror) :
  x ∈ run_validators post_root_validators req w →
  post_root req e w = (w, bad_request (run_validators post_root_validators req w)).
Proof.
  intros Hx. rewrite post_root_eq.
  destruct (run_validators post_root_validators req w); [|done].
  by apply not_elem_of_nil in Hx.
Qed.

(** X6. POST / with a field among name, lastname and age missing from the body
    answers 400 and stores nothing; the errors it sends include "Missing
    param" for that field. *)
Theorem post_root_reports_missing_field (req : request) (e : env) (w : world)
    (f : string) :
  f ∈ ["name"; "lastname"; "age"] →
  body req !! f = None →
  ∃ errors,
    post_root req e w = (w, bad_request errors)
    ∧ {| err_value := None; err_msg := "Missing param"; err_param := f;
         err_location := "body" |} ∈ errors.
Proof.
  intros Hf Hnone. eexists.
  assert ({| err_value := None; err_msg := "Missing param"; err_param := f;
             err_location := "body" |}
          ∈ run_validators post_root_validators req w) as Hin.
  { eapply run_validators_elem; [apply list_elem_of_here|].
    rewrite <- Hnone. apply body_fields_elem; [done|by rewrite Hnone]. }
  split; [by eapply post_root_rejected | done].
Qed.

Lemma post_root_reports_missing_field_witness :
  ∃ errors,
    post_root (Sample.req [] {[ "name" := VStr "Dan"; "age" := VNum 42 ]})
      Sample.e0 Sample.w0
    = (Sample.w0, bad_request errors)
    ∧ {| err_value := None; err_msg := "Missing param"; err_param := "lastname";
         err_location := "body" |} ∈ errors.
Proof.
  apply (post_root_reports_missing_field
           (Sample.req [] {[ "name" := VStr "Dan"; "age" := VNum 42 ]})
           Sample.e0 Sample.w0 "lastname").
  - by_decide.
  - by_eval.
Defined.

(** X7. POST / with an age that is a number below 1 or above 150 answers 400
    and stores nothing; the errors it sends include "Invalid value" for
    age, with the submitted number. *)
Theorem post_root_rejects_age_out_of_range (req : request) (e : env) (w : world)
    (a : Q) :
  body req !! "age" = Some (VNum a) →
  (a < 1 ∨ 150 < a)%Q →
  ∃ errors,
    post_root req e w = (w, bad_request errors)
    ∧ {| err_value := Some (VNum a); err_msg := "Invalid value"; err_param := "age";
         err_location := "body" |} ∈ errors.
Proof.
  intros Ha Hout. eexists.
  assert ({| err_value := Some (VNum a); err_msg := "Invalid value";
             err_param := "age"; err_location := "body" |}
          ∈ run_validators post_root_validators req w) as Hin.
  { eapply run_validators_elem; [do 2 apply list_elem_of_further; apply list_elem_of_here|].
    rewrite <- Ha. apply body_fields_elem; [apply list_elem_of_here|].
    rewrite Ha. cbn. unfold in_range. apply andb_false_iff.
    destruct Hout as [Hlo|Hhi].
    - left. apply not_true_is_false. rewrite Qle_bool_iff. by apply Qlt_not_le.
    - right. apply not_true_is_false. rewrite Qle_bool_iff. by apply Qlt_not_le. }
  split; [by eapply post_root_rejected | done].
Qed.

Lemma post_root_rejects_age_out_of_range_witness :
  ∃ errors,
    post_root
      (Sample.req [] {[ "name" := VStr "Dan"; "lastname" := VStr "Fox";
                        "age" := VNum 151 ]})
      Sample.e0 Sample.w0
    = (Sample.w0, bad_request errors)
    ∧ {| err_value := Some (VNum 151); err_msg := "Invalid value";
         err_param := "age"; err_location := "body" |} ∈ errors.
Proof.
  apply (post_root_rejects_age_out_of_range
           (Sample.req [] {[ "name" := VStr "Dan"; "lastname" := VStr "Fox";
                             "age" := VNum 151 ]})
           Sample.e0 Sample.w0 151).
  - by_eval.
  - right. by_eval.
Defined.

Lemma post_root_stores_checked_age_witness :
  ∃ person v,
    post_root
      (Sample.req [] {[ "name" := VStr "Dan"; "lastname" := VStr "Fox";
                        "age" := VStr "42.5" ]})
      Sample.e0 Sample.w0
    = (with_people Sample.w0 1000 (people (store Sample.w0) ++ [person]),
       send (VObj person))
    ∧ person !! "age" = Some v
    ∧ isFloat 1 150 (Some v) = true.
Proof.
  destruct (post_root_stores_checked_age
              (Sample.req [] {[ "name" := VStr "Dan"; "lastname" := VStr "Fox";
                                "age" := VStr "42.5" ]})
              Sample.e0 Sample.w0) as (person & v & H & Hage & _ & Hv & _);
    [by_eval|].
  exists person, v. split; [exact H|]. split; [exact Hage | exact Hv].
Defined.

(** X9. PATCH /person/:id with a body key other than name, lastname and age
    answers 400 and updates nothing, whatever the id and the other keys; the
    errors it sends include "Bad model" for the body. A client can set
    neither [_id] nor [updatedAt], [petIds] or [carId] this way. *)
Theorem patch_person_rejects_unknown_key (req : request) (e : env) (w : world)
    (k : string) :
  is_Some (body req !! k) →
  k ∉ allowedFields →
  ∃ errors,
    patch_person req e w = (w, bad_request errors)
    ∧ {| err_value := Some (VObj (body req)); err_msg := "Bad model";
         err_param := ""; err_location := "body" |} ∈ errors.
Proof.
  intros [v Hk] Hnot. eexists.
  assert (patch_body_validator (body req) = false) as Hbad.
  { unfold patch_body_validator.
    assert (existsb (λ key, negb (includes allowedFields key)) (Object_keys (body req))
            = true) as ->; [|done].
    apply existsb_exists. exists k. split.
    - apply list_elem_of_In. unfold Object_keys.
      apply (list_elem_of_fmap_2 fst _ (k, v)). by apply elem_of_map_to_list.
    - apply negb_true_iff, not_true_is_false. by rewrite includes_elem_of. }
  assert ({| err_value := Some (VObj (body req)); err_msg := "Bad model";
             err_param := ""; err_location := "body" |}
          ∈ run_validators patch_person_validators req w) as Hin.
  { eapply run_validators_elem; [apply list_elem_of_further, list_elem_of_here|].
    unfold body_custom. rewrite Hbad. apply list_elem_of_here. }
  split; [|done]. rewrite patch_person_eq.
  destruct (run_validators patch_person_validators req w); [|done].
  by apply not_elem_of_nil in Hin.
Qed.

Lemma patch_person_rejects_unknown_key_witness :
  ∃ errors,
    patch_person
      (Sample.req [("id", Sample.ann_id)] {[ "age" := VNum 31; "_id" := VStr "x" ]})
      Sample.e0 Sample.w0
    = (Sample.w0, bad_request errors).
Proof.
  destruct (patch_person_rejects_unknown_key
              (Sample.req [("id", Sample.ann_id)] {[ "age" := VNum 31; "_id" := VStr "x" ]})
              Sample.e0 Sample.w0 "_id") as (errors & H & _).
  - eexists. by_eval.
  - intros H. by apply (bool_decide_pack _) in H.
  - by exists errors.
Defined.

(** ** GET /name/:name and GET /age/:age *)

Lemma find_sublist (query : list (string * value)) (c : list doc) :
  find query c `sublist_of` c.
Proof.
  unfold find. induction c as [|d c IH]; cbn [List.filter]; [done|].
  destruct (matches query d); [by apply sublist_skip | by apply sublist_cons].
Qed.

Lemma find_elem (query : list (string * value)) (c : list doc) (d : doc) :
  d ∈ find query c ↔ d ∈ c ∧ matches query d = true.
Proof. unfold find. by rewrite list_elem_of_In, filter_In, <- list_elem_of_In. Qed.

Lemma matches_one_field (k : string) (v : value) (d : doc) :
  matches [(k, v)] d = field_matches v (d !! k).
Proof. unfold matches. cbn [forallb]. apply andb_true_r. Qed.

(** X11. GET /name/:name answers 200 in every case, with the people whose name
    matches the parameter, in the order of the store and without touching
    it: among the people whose name is a string, exactly those whose name
    is the parameter. Nobody by that name gives the empty array, not
    an error. *)
Theorem get_by_name_selects (req : request) (e : env) (w : world) :
  ∃ found,
    get_by_name req e w = (w, send (VArr (VObj <$> found)))
    ∧ found `sublist_of` people (store w)
    ∧ (∀ d, d ∈ found ↔
            d ∈ people (store w)
            ∧ field_matches (VStr (param req "name")) (d !! "name") = true)
    ∧ (∀ d m, d ∈ people (store w) → d !! "name" = Some (VStr m) →
              d ∈ found ↔ m = param req "name")
    ∧ (Forall (λ d, field_matches (VStr (param req "name")) (d !! "name") = false)
         (people (store w)) → found = []).
Proof.
  exists (find [("name", VStr (param req "name"))] (people (store w))).
  split; [apply get_by_name_eq|]. split; [apply find_sublist|].
  split; [|split].
  - intros d. by rewrite find_elem, matches_one_field.
  - intros d m Hd Hm. rewrite find_elem, matches_one_field, Hm. cbn.
    rewrite String.eqb_eq. split; [by intros [_ ->] | by intros ->].
  - intros Hnone. apply filter_none. eapply Forall_impl; [done|].
    intros d Hd. by rewrite matches_one_field.
Qed.

Lemma age_validator_true (Number : string → jsnumber) (age : string) :
  age_validator Number age = true ↔
  ∃ q, Number age = Finite q ∧ (1 <= q)%Q ∧ (q <= 150)%Q.
Proof.
  unfold age_validator. destruct (Number age) as [|negative|q]; cbn.
  - split; [done | by intros (q & ? & _)].
  - destruct negative; cbn; (split; [done | by intros (q & ? & _)]).
  - destruct (Qle_bool 1 q) eqn:E1, (Qle_bool q 150) eqn:E2; cbn; split;
      try done;
      try (intros (q' & [= <-] & H1 & H2); apply Qle_bool_iff in H1, H2;
           congruence).
    intros _. exists q. split; [done|]. split; by apply Qle_bool_iff.
Qed.

(** X12. GET /age/:age with a parameter that does not convert to a number
    within [1, 150] (it gives NaN, an infinity, or a number outside the
    range) answers 400 with one error, "Invalid value" for age, and reads
    nothing from the store. *)
Theorem get_by_age_rejects (Number : string → jsnumber) (req : request) (e : env)
    (w : world) :
  (∀ q, Number (param req "age") = Finite q → (q < 1 ∨ 150 < q)%Q) →
  get_by_age Number req e w
  = (w, bad_request [ {| err_value := Some (VStr (param req "age"));
                         err_msg := "Invalid value"; err_param := "age";
                         err_location := "params" |} ]).
Proof.
  intros Hout. rewrite get_by_age_eq.
  unfold run_validators, get_by_age_validators, param_custom. cbn.
  destruct (age_validator Number (param req "age")) eqn:E; [|done].
  apply age_validator_true in E as (q & Hq & Hlo & Hhi).
  destruct (Hout q Hq) as [H|H]; by apply Qlt_not_le in H.
Qed.

Lemma get_by_age_rejects_witness :
  get_by_age Sample.Number (Sample.req [("age", "0.5")] ∅) Sample.e0 Sample.w0
  = (Sample.w0, bad_request [ {| err_value := Some (VStr "0.5");
                                 err_msg := "Invalid value"; err_param := "age";
                                 err_location := "params" |} ]).
Proof.
  apply (get_by_age_rejects Sample.Number (Sample.req [("age", "0.5")] ∅)
           Sample.e0 Sample.w0).
  intros q H. vm_compute in H. injection H as <-. left. by_eval.
Defined.

(** X13. GET /age/:age with a parameter that converts to a number [q] within
    [1, 150] answers 200 with the people whose age matches [q], in the
    order of the store and without touching it: among the people whose age
    is a number, exactly those whose age equals [q]. *)
Theorem get_by_age_selects (Number : string → jsnumber) (req : request) (e : env)
    (w : world) (q : Q) :
  Number (param req "age") = Finite q →
  (1 <= q)%Q → (q <= 150)%Q →
  ∃ found,
    get_by_age Number req e w = (w, send (VArr (VObj <$> found)))
    ∧ found `sublist_of` people (store w)
    ∧ (∀ d, d ∈ found ↔
            d ∈ people (store w) ∧ field_matches (VNum q) (d !! "age") = true)
    ∧ (∀ d a, d ∈ people (store w) → d !! "age" = Some (VNum a) →
              d ∈ found ↔ (a == q)%Q).
Proof.
  intros Hq Hlo Hhi.
  exists (find [("age", VNum q)] (people (store w))).
  split; [|split; [apply find_sublist|split]].
  - rewrite get_by_age_eq.
    assert (run_validators (get_by_age_validators Number) req w = []) as ->.
    { apply run_param_custom, age_validator_true. by exists q. }
    by rewrite Hq.
  - intros d. by rewrite find_elem, matches_one_field.
  - intros d a Hd Ha. rewrite find_elem, matches_one_field, Ha.
    cbn [field_matches value_eqb]. split.
    + intros [_ H]. apply Qeq_bool_iff in H. by symmetry.
    + intros H. split; [done|]. apply Qeq_bool_iff. by symmetry.
Qed.

Lemma get_by_age_selects_witness :
  ∃ found,
    get_by_age Sample.Number (Sample.req [("age", "20")] ∅) Sample.e0 Sample.w0
    = (Sample.w0, send (VArr (VObj <$> found)))
    ∧ (Sample.bob ∈ found ↔ (20 == 20)%Q).
Proof.
  destruct (get_by_age_selects Sample.Number (Sample.req [("age", "20")] ∅)
              Sample.e0 Sample.w0 20) as (found & H & _ & _ & Hnum).
  - by_eval.
  - vm_compute; discriminate.
  - vm_compute; discriminate.
  - exists found. split; [exact H|].
    apply Hnum; [|by_eval]. apply list_elem_of_further, list_elem_of_here.
Defined.

(** ** POST /person/:id/car/:carId *)

Lemma add_car_run (req : request) (e : env) (w : world) (id carId o c : string)
    (before : list doc) (d : doc) (after : list doc) :
  params req !! "id" = Some id →
  params req !! "carId" = Some carId →
  ObjectId id = Ok o → ObjectId carId = Ok c →
  first_with_id o before d after (people (store w)) →
  validateCarId (store w) carId = true →
  add_car req e w
  = (with_people w (clock w) (before ++ <["carId" := VOid c]> d :: after),
     send (VObj {[ "updatedPersonId" := VStr id; "newCarId" := VStr carId ]})).
Proof.
  intros Hid Hcar Ho Hc Hfirst Hv. apply param_lookup in Hid, Hcar.
  rewrite add_car_eq.
  assert (run_validators add_car_validators req w = []) as ->.
  { apply run_param_custom2. rewrite Hid, Hcar. split; [|done].
    by eapply first_with_id_references. }
  rewrite Hid, Hcar, Ho, Hc. destruct Hfirst as (-> & Hb & Hd).
  rewrite updateOne_first by done. cbn [apply_update mbind result_bind].
  by rewrite <- insert_union_singleton_l.
Qed.

(** X14. Attaching a car to a person, with both ids valid, answers 200 with
    [{updatedPersonId, newCarId}] and sets the person's [carId] to the
    car's ObjectId, in place of any earlier value; the person's other
    fields and every other person stay as they were. *)
Theorem add_car_sets_car (req : request) (e : env) (w : world) (id carId : string) :
  params req !! "id" = Some id →
  params req !! "carId" = Some carId →
  validatePersonId (store w) id = true →
  validateCarId (store w) carId = true →
  ∃ o c before d after,
    ObjectId id = Ok o ∧ ObjectId carId = Ok c
    ∧ first_with_id o before d after (people (store w))
    ∧ add_car req e w
      = (with_people w (clock w) (before ++ <["carId" := VOid c]> d :: after),
         send (VObj {[ "updatedPersonId" := VStr id; "newCarId" := VStr carId ]})).
Proof.
  intros Hid Hcar Hp Hc.
  destruct (references_first _ _ Hp) as (o & before & d & after & Ho & Hfirst).
  destruct (references_first _ _ Hc) as (c & _ & _ & _ & Hco & _).
  exists o, c, before, d, after. repeat (split; [done|]).
  by eapply add_car_run.
Qed.

Lemma add_car_sets_car_witness :
  ∃ before d after,
    add_car (Sample.req [("id", Sample.cid_id); ("carId", Sample.kia_id)] ∅)
      Sample.e0 Sample.w0
    = (with_people Sample.w0 1000
         (before ++ <["carId" := VOid Sample.kia_id]> d :: after),
       send (VObj {[ "updatedPersonId" := VStr Sample.cid_id;
                     "newCarId" := VStr Sample.kia_id ]})).
Proof.
  destruct (add_car_sets_car
              (Sample.req [("id", Sample.cid_id); ("carId", Sample.kia_id)] ∅)
              Sample.e0 Sample.w0 Sample.cid_id Sample.kia_id)
    as (o & c & before & d & after & _ & Hc & _ & H); [by_eval ..|].
  injection Hc as <-. by exists before, d, after.
Defined.

(** X15. Attaching a second car replaces the first: two attachments to the same
    person leave the world, and give the answer, of the second one alone.
    In particular attaching the same car twice is the same as once. *)
Theorem add_car_last_wins (req1 req2 : request) (e1 e2 : env) (w : world)
    (id car1 car2 : string) :
  params req1 !! "id" = Some id → params req1 !! "carId" = Some car1 →
  params req2 !! "id" = Some id → params req2 !! "carId" = Some car2 →
  validatePersonId (store w) id = true →
  validateCarId (store w) car1 = true →
  validateCarId (store w) car2 = true →
  add_car req2 e2 (add_car req1 e1 w).1 = add_car req2 e2 w.
Proof.
  intros Hid1 Hcar1 Hid2 Hcar2 Hp Hc1 Hc2.
  destruct (references_first _ _ Hp) as (o & before & d & after & Ho & Hfirst).
  destruct (references_first _ _ Hc1) as (c1 & _ & _ & _ & Hco1 & _).
  destruct (references_first _ _ Hc2) as (c2 & _ & _ & _ & Hco2 & _).
  rewrite (add_car_run req1 e1 w id car1 o c1 before d after) by done.
  rewrite (add_car_run req2 e2 w id car2 o c2 before d after) by done.
  cbn [fst].
  rewrite (add_car_run req2 e2 _ id car2 o c2 before
             (<["carId" := VOid c1]> d) after); try done.
  - by rewrite with_people_twice, insert_insert_eq.
  - destruct Hfirst as (_ & Hb & Hd). split; [done|]. split; [done|].
    rewrite <- Hd. apply matches_by_id_same_id. by apply lookup_insert_ne.
Qed.

Lemma add_car_last_wins_witness :
  add_car (Sample.req [("id", Sample.bob_id); ("carId", Sample.kia_id)] ∅) Sample.e0
    (add_car (Sample.req [("id", Sample.bob_id); ("carId", Sample.kia_id)] ∅)
       Sample.e0 Sample.w0).1
  = add_car (Sample.req [("id", Sample.bob_id); ("carId", Sample.kia_id)] ∅)
      Sample.e0 Sample.w0.
Proof.
  apply (add_car_last_wins _ _ _ _ _ Sample.bob_id Sample.kia_id Sample.kia_id);
    by_eval.
Defined.

Lemma join_matches_by_id (c : string) (x : doc) :
  join_matches (Some (VOid c)) (x !! "_id") = matches (by_id c) x.
Proof.
  rewrite matches_by_id. unfold join_matches. cbn [default].
  by destruct (x !! "_id").
Qed.

(** X16. After a car is attached to a person, GET /person/:id/car shows that
    person, at its place in the array, with the stored car embedded as the
    one element of [car] and without [carId] (the cars being keyed by
    unique ids). *)
Theorem add_car_then_get_car (req req' : request) (e e' : env) (w : world)
    (id carId : string) :
  params req !! "id" = Some id →
  params req !! "carId" = Some carId →
  validatePersonId (store w) id = true →
  validateCarId (store w) carId = true →
  well_keyed (cars (store w)) →
  ∃ o c before d after car out,
    ObjectId id = Ok o ∧ ObjectId carId = Ok c
    ∧ first_with_id o before d after (people (store w))
    ∧ car ∈ cars (store w) ∧ oid_of car = Some c
    ∧ get_car req' e' (add_car req e w).1
      = ((add_car req e w).1, send (VArr (VObj <$> out)))
    ∧ out !! length before
      = Some (<["car" := VArr [VObj car]]> (delete "carId" d)).
Proof.
  intros Hid Hcar Hp Hc Hwf.
  destruct (references_first _ _ Hp) as (o & before & d & after & Ho & Hfirst).
  destruct (references_first _ _ Hc) as (c & cb & car & ca & Hco & Hcfirst).
  rewrite (add_car_run req e w id carId o c before d after) by done.
  exists o, c, before, d, after, car. eexists.
  repeat (split; [done|]).
  split; [destruct Hcfirst as (-> & _); apply elem_of_app; right; apply list_elem_of_here|].
  split.
  { destruct Hcfirst as (Hcs & _ & Hm). apply matches_by_id_oid; [|done].
    destruct Hwf as [Hall _]. rewrite forallb_forall in Hall.
    apply Hall, list_elem_of_In. rewrite Hcs. apply elem_of_app. right.
    apply list_elem_of_here. }
  split; [apply get_car_eq|].
  cbn [fst with_people store set_people people cars].
  rewrite list_lookup_fmap, list_lookup_middle by done. cbn [fmap option_fmap option_map].
  f_equal. unfold with_car. rewrite lookup_insert_eq.
  rewrite (List.filter_ext _ (matches (by_id c)))
    by (intros x; apply join_matches_by_id).
  change (List.filter (matches (by_id c)) (cars (store w)))
    with (find (by_id c) (cars (store w))).
  rewrite (find_by_id_well_keyed c cb car ca) by done. cbn [fmap list_fmap].
  rewrite delete_insert_ne by done. f_equal. apply delete_insert_eq.
Qed.

Lemma add_car_then_get_car_witness :
  ∃ (before : list doc) (d car : doc) (out : list doc),
    get_car (Sample.req [] ∅) Sample.e0
      (add_car (Sample.req [("id", Sample.cid_id); ("carId", Sample.kia_id)] ∅)
         Sample.e0 Sample.w0).1
    = ((add_car (Sample.req [("id", Sample.cid_id); ("carId", Sample.kia_id)] ∅)
          Sample.e0 Sample.w0).1,
       send (VArr (VObj <$> out)))
    ∧ oid_of car = Some Sample.kia_id
    ∧ out !! length before = Some (<["car" := VArr [VObj car]]> (delete "carId" d)).
Proof.
  destruct (add_car_then_get_car
              (Sample.req [("id", Sample.cid_id); ("carId", Sample.kia_id)] ∅)
              (Sample.req [] ∅) Sample.e0 Sample.e0 Sample.w0
              Sample.cid_id Sample.kia_id)
    as (o & c & before & d & after & car & out & _ & Hc & _ & _ & Hcar & H & Hout).
  - by_eval.
  - by_eval.
  - by_eval.
  - by_eval.
  - split; [by_eval | by_decide].
  - injection Hc as <-. exists before, d, car, out.
    split; [exact H|]. split; [exact Hcar | exact Hout].
Defined.

(** ** Sequences of requests *)

Lemma deleteOne_first q (before : list doc) (d : doc) (after : list doc) :
  Forall (λ x, matches q x = false) before → matches q d = true →
  deleteOne q (before ++ d :: after) = before ++ after.
Proof.
  induction 1 as [|x c Hx _ IH]; intros Hd; cbn [deleteOne app].
  - by rewrite Hd.
  - by rewrite Hx, IH.
Qed.

(** X17. Deleting the same person a second time changes nothing more: with
    unique ids, the world after two DELETE requests for an id is the world
    after the first. *)
Theorem delete_person_twice (req : request) (e e' : env) (w : world) :
  well_keyed (people (store w)) →
  (delete_person req e' (delete_person req e w).1).1 = (delete_person req e w).1.
Proof.
  intros Hwf. rewrite (delete_person_eq req e w).
  destruct (ObjectId (param req "id")) as [o|err] eqn:Ho; cbn [fst].
  - rewrite delete_person_eq, Ho. cbn [fst with_people store set_people people clock].
    rewrite deleteOne_well_keyed by done. rewrite deleteOne_none; [done|].
    apply Forall_forall. intros d Hd.
    apply list_elem_of_In, filter_In in Hd as [_ Hd]. by apply negb_true_iff in Hd.
  - by rewrite delete_person_eq, Ho.
Qed.

Lemma delete_person_twice_witness :
  (delete_person (Sample.req [("id", Sample.bob_id)] ∅) Sample.e0
     (delete_person (Sample.req [("id", Sample.bob_id)] ∅) Sample.e0 Sample.w0).1).1
  = (delete_person (Sample.req [("id", Sample.bob_id)] ∅) Sample.e0 Sample.w0).1.
Proof.
  apply (delete_person_twice (Sample.req [("id", Sample.bob_id)] ∅)
           Sample.e0 Sample.e0 Sample.w0).
  split; [by_eval | by_decide].
Defined.

Lemma post_root_run (req : request) (e : env) (w : world) (n l : string) (a : Q) :
  body req !! "name" = Some (VStr n) →
  body req !! "lastname" = Some (VStr l) →
  body req !! "age" = Some (VNum a) →
  (1 <= a)%Q → (a <= 150)%Q →
  Forall (λ d, matches (by_id (generated_id e)) d = false) (people (store w)) →
  post_root req e w
  = (with_people w (clock w)
       (people (store w) ++ [<["_id" := VOid (generated_id e)]> (Person (body req))]),
     send (VObj (<["_id" := VOid (generated_id e)]> (Person (body req))))).
Proof.
  intros Hn Hl Ha Hlo Hhi Hfresh. rewrite post_root_eq.
  assert (run_validators post_root_validators req w = []) as ->.
  { apply post_root_validators_none. rewrite Hn, Hl, Ha. cbn.
    unfold in_range. apply Qle_bool_iff in Hlo, Hhi. by rewrite Hlo, Hhi. }
  by rewrite insertOne_fresh by (done || apply Person_no_id).
Qed.

Lemma matches_new_person (g : string) (d : doc) :
  matches (by_id g) (<["_id" := VOid g]> d) = true.
Proof. rewrite matches_by_id, lookup_insert_eq. cbn. apply String.eqb_refl. Qed.

(** X18. Creating a person and then deleting it by the id the answer carried
    gives back the world as it was before the two requests (the id being
    the 24 lower-case hex digits under which the driver prints it). *)
Theorem post_then_delete_restores (req req' : request) (e e' : env) (w : world)
    (n l : string) (a : Q) :
  body req !! "name" = Some (VStr n) →
  body req !! "lastname" = Some (VStr l) →
  body req !! "age" = Some (VNum a) →
  (1 <= a)%Q → (a <= 150)%Q →
  Forall (λ d, matches (by_id (generated_id e)) d = false) (people (store w)) →
  ObjectId (generated_id e) = Ok (generated_id e) →
  params req' !! "id" = Some (generated_id e) →
  delete_person req' e' (post_root req e w).1
  = (w, send (VObj {[ "deletedPersonId" := VStr (generated_id e) ]})).
Proof.
  intros Hn Hl Ha Hlo Hhi Hfresh Hg Hid. apply param_lookup in Hid.
  rewrite (post_root_run req e w n l a) by done. cbn [fst].
  rewrite delete_person_eq, Hid, Hg.
  change (people (store (with_people w (clock w) ?c))) with c.
  change (clock (with_people w (clock w) ?c)) with (clock w).
  rewrite deleteOne_first by (done || apply matches_new_person).
  by rewrite app_nil_r, with_people_twice, with_people_same.
Qed.

Lemma post_then_delete_restores_witness :
  delete_person (Sample.req [("id", Sample.new_id)] ∅) Sample.e0
    (post_root
       (Sample.req [] {[ "name" := VStr "Dan"; "lastname" := VStr "Fox";
                         "age" := VNum 42 ]})
       Sample.e0 Sample.w0).1
  = (Sample.w0, send (VObj {[ "deletedPersonId" := VStr Sample.new_id ]})).
Proof.
  apply (post_then_delete_restores
           (Sample.req [] {[ "name" := VStr "Dan"; "lastname" := VStr "Fox";
                             "age" := VNum 42 ]})
           (Sample.req [("id", Sample.new_id)] ∅) Sample.e0 Sample.e0 Sample.w0
           "Dan" "Fox" 42).
  - by_eval.
  - by_eval.
  - by_eval.
  - vm_compute; discriminate.
  - vm_compute; discriminate.
  - repeat constructor.
  - by_eval.
  - by_eval.
Defined.

(** X19. A created person is listed: after a successful POST /, GET / answers
    the earlier people followed by the new person, and GET /name/:name with
    the submitted name answers the earlier people of that name followed by
    the new person. *)
Theorem post_then_listed (req req' : request) (e e' : env) (w : world)
    (n l : string) (a : Q) :
  body req !! "name" = Some (VStr n) →
  body req !! "lastname" = Some (VStr l) →
  body req !! "age" = Some (VNum a) →
  (1 <= a)%Q → (a <= 150)%Q →
  Forall (λ d, matches (by_id (generated_id e)) d = false) (people (store w)) →
  params req' !! "name" = Some n →
  ∃ person,
    (post_root req e w).2 = send (VObj person)
    ∧ (get_root req' e' (post_root req e w).1).2
      = send (VArr (VObj <$> (people (store w) ++ [person])))
    ∧ ∃ found,
        (get_by_name req' e' w).2 = send (VArr (VObj <$> found))
        ∧ (get_by_name req' e' (post_root req e w).1).2
          = send (VArr (VObj <$> (found ++ [person]))).
Proof.
  intros Hn Hl Ha Hlo Hhi Hfresh Hname. apply param_lookup in Hname.
  rewrite (post_root_run req e w n l a) by done. cbn [fst snd].
  eexists. split; [reflexivity|]. split; [by rewrite get_root_eq|].
  eexists. rewrite !get_by_name_eq, Hname. split; [reflexivity|].
  cbn [snd with_people store set_people people]. unfold find.
  rewrite List.filter_app. cbn [List.filter].
  rewrite matches_one_field, lookup_insert_ne by done.
  rewrite Person_lookup by repeat constructor. rewrite Hn. cbn [field_matches value_eqb].
  by rewrite String.eqb_refl.
Qed.

Lemma post_then_listed_witness :
  ∃ person,
    (get_root (Sample.req [("name", "Ann")] ∅) Sample.e0
       (post_root
          (Sample.req [] {[ "name" := VStr "Ann"; "lastname" := VStr "Fox";
                            "age" := VNum 42 ]})
          Sample.e0 Sample.w0).1).2
    = send (VArr (VObj <$> (people (store Sample.w0) ++ [person]))).
Proof.
  destruct (post_then_listed
              (Sample.req [] {[ "name" := VStr "Ann"; "lastname" := VStr "Fox";
                                "age" := VNum 42 ]})
              (Sample.req [("name", "Ann")] ∅) Sample.e0 Sample.e0 Sample.w0
              "Ann" "Fox" 42) as (person & _ & H & _).
  - by_eval.
  - by_eval.
  - by_eval.
  - vm_compute; discriminate.
  - vm_compute; discriminate.
  - repeat constructor.
  - by_eval.
  - exists person. exact H.
Defined.

(** ** A person without a stored car *)

(** X20. GET /person/:id/car shows a person that has no [carId], or whose
    [carId] is the id of no stored car, with an empty [car] array (the
    cars all carrying an ObjectId): the person is listed all the same, and
    a stale [carId] is dropped from the answer like any other. *)
Theorem get_car_without_stored_car (req : request) (e : env) (w : world)
    (i : nat) (d : doc) :
  people (store w) !! i = Some d →
  forallb has_oid (cars (store w)) = true →
  (d !! "carId" = None
   ∨ ∃ c, d !! "carId" = Some (VOid c) ∧ Some c ∉ oid_of <$> cars (store w)) →
  ∃ out,
    get_car req e w = (w, send (VArr (VObj <$> out)))
    ∧ out !! i = Some (<["car" := VArr []]> (delete "carId" d)).
Proof.
  intros Hd Hall Hcar. eexists. split; [apply get_car_eq|].
  rewrite list_lookup_fmap, Hd. cbn [fmap option_fmap option_map]. f_equal.
  unfold with_car. rewrite delete_insert_ne by done. f_equal.
  rewrite filter_none; [done|].
  apply Forall_forall. intros x Hx.
  assert (has_oid x = true) as Hox.
  { rewrite forallb_forall in Hall. by apply Hall, list_elem_of_In. }
  destruct Hcar as [->|(c & -> & Hnot)].
  - unfold has_oid, oid_of in Hox. unfold join_matches. cbn [default].
    by destruct (x !! "_id") as [[]|].
  - apply not_true_is_false. rewrite join_matches_oid by done.
    intros Hc. apply Hnot. rewrite <- Hc. by apply list_elem_of_fmap_2.
Qed.

Lemma get_car_without_stored_car_witness :
  ∃ out,
    get_car (Sample.req [] ∅) Sample.e0 Sample.w0
    = (Sample.w0, send (VArr (VObj <$> out)))
    ∧ out !! 0 = Some (<["car" := VArr []]> (delete "carId" Sample.ann)).
Proof.
  apply (get_car_without_stored_car (Sample.req [] ∅) Sample.e0 Sample.w0 0
           Sample.ann).
  - by_eval.
  - by_eval.
  - left. by_eval.
Defined.
